(** * Serial_Communication_Port: the AT-command register server

    A shallow embedding of [server.c] (the register list, the bounds
    validator and the request dispatcher) together with the few functions
    of the C library it calls, and the properties of the specification
    stated over it.

    Modelling conventions.
    - A C string is a [string]; a [char *] that may be [NULL] (a result
      of [strtok]) is an [option string].
    - An [int] is a [Z] in the range [INT_MIN .. INT_MAX]; an operation
      whose result leaves that range ([atoi] on a long literal,
      [numofregs++] at [INT_MAX]) is undefined.
    - A computation is a [res]: it returns a value or it is undefined
      (a [NULL] pointer handed to [atoi], [strcpy] or through [->], a
      signed overflow, or a string written past the end of an array).
    - The linked list [regs] is a [list registers_t] in list order; the
      [NULL] head before [init_reglist] is the empty list.
    - The arrays the server writes numbers to are followed:
      [reg_result_string] (two bytes) and [stringnum], [tempid] and
      [regid] ([REGID_MAX] bytes). The arrays that take a request or a
      part of one ([MAX_STRING] bytes, and [bounds], which has the
      [MAX_REQ_SIZE] bytes of a request read from the port) are taken to
      hold every string copied to them.
    - What the server writes to the serial port is the C string handed to
      [my_write]; [malloc] failure and the diagnostics printed on stdout
      and stderr are not modelled.

    The modules [Common] and [Client] embed the transfer loops of
    [commonfunc.c] and the menu of [client.c]; their own conventions are
    stated where they begin. *)

From Stdlib Require Import ZArith List String Ascii Bool Lia.
From Equations Require Import Equations.
Import ListNotations.

Open Scope string_scope.
Open Scope Z_scope.

(* ================================================================== *)
(** * The C library, as far as the server uses it *)
(* ================================================================== *)

Module CLib.

(** ** Results of C computations *)

Inductive fault : Type :=
| NullDeref      (* a NULL pointer was dereferenced *)
| IntOverflow    (* a signed result is not representable in [int] *)
| BufferOverrun. (* a string was written past the end of an array *)

Inductive res (A : Type) : Type :=
| Ret (a : A)
| Undef (f : fault).

Arguments Ret {A} a.
Arguments Undef {A} f.

Definition bind {A B : Type} (m : res A) (k : A -> res B) : res B :=
  match m with
  | Ret a => k a
  | Undef f => Undef f
  end.

Notation "x <- m ;; k" := (bind m (fun x => k))
  (at level 61, m at next level, right associativity).

(** ** [int] *)

Definition INT_MAX : Z := 2147483647.
Definition INT_MIN : Z := -2147483648.

Definition in_int (z : Z) : bool := (INT_MIN <=? z) && (z <=? INT_MAX).

(** ** Characters *)

Definition isdigit (c : ascii) : bool :=
  let n := nat_of_ascii c in (48 <=? n)%nat && (n <=? 57)%nat.

(** The six white-space characters of the "C" locale. *)
Definition isspace (c : ascii) : bool :=
  let n := nat_of_ascii c in (n =? 32)%nat || ((9 <=? n)%nat && (n <=? 13)%nat).

Definition digit_value (c : ascii) : Z := Z.of_nat (nat_of_ascii c) - 48.

Definition digit_char (d : Z) : ascii := ascii_of_nat (Z.to_nat (d + 48)).

(** ** [atoi] *)

Fixpoint skip_space (s : string) : string :=
  match s with
  | String c s' => if isspace c then skip_space s' else s
  | EmptyString => EmptyString
  end.

(** The value of the longest prefix of decimal digits, [acc] being the
    value of the digits already read. *)
Fixpoint digits_value (acc : Z) (s : string) : Z :=
  match s with
  | String c s' =>
      if isdigit c then digits_value (10 * acc + digit_value c) s' else acc
  | EmptyString => acc
  end.

(** The integer a string begins with: white space, an optional sign, then
    digits; [0] when there is no digit. *)
Definition leading_int (s : string) : Z :=
  match skip_space s with
  | String "-" s' => - digits_value 0 s'
  | String "+" s' => digits_value 0 s'
  | s' => digits_value 0 s'
  end.

Definition atoi (nptr : option string) : res Z :=
  match nptr with
  | None => Undef NullDeref
  | Some s =>
      let v := leading_int s in
      if in_int v then Ret v else Undef IntOverflow
  end.

(** ** [sprintf "%d"] *)

Fixpoint digits_fuel (fuel : nat) (n : Z) : string :=
  match fuel with
  | O => EmptyString
  | S fuel' =>
      if n <? 10 then String (digit_char n) EmptyString
      else digits_fuel fuel' (n / 10) ++ String (digit_char (n mod 10)) EmptyString
  end.

(** The decimal digits of a natural number [n]; [Z.log2 n] bounds the
    number of divisions by ten. *)
Definition digits_of (n : Z) : string :=
  digits_fuel (S (Z.to_nat (Z.log2 n))) n.

Definition itoa (n : Z) : string :=
  if n <? 0 then String "-" (digits_of (- n)) else digits_of n.

(** ** [strchr], [strcmp], [strncmp] *)

(** [strchr s c != NULL]. *)
Fixpoint strchr (s : string) (c : ascii) : bool :=
  match s with
  | EmptyString => false
  | String a s' => Ascii.eqb a c || strchr s' c
  end.

Definition uchar (c : ascii) : Z := Z.of_nat (nat_of_ascii c).

(** The standard fixes only the sign of the result: that of the
    difference of the first two characters (as [unsigned char]) that
    differ. The end of a string comes before every character, a C string
    holding no NUL. *)
Fixpoint strcmp (s1 s2 : string) : Z :=
  match s1, s2 with
  | EmptyString, EmptyString => 0
  | EmptyString, String _ _ => -1
  | String _ _, EmptyString => 1
  | String a s1', String b s2' =>
      if Ascii.eqb a b then strcmp s1' s2'
      else if uchar a <? uchar b then -1 else 1
  end.

(** [strcmp] on the first [n] characters at most. *)
Fixpoint strncmp (s1 s2 : string) (n : nat) : Z :=
  match n with
  | O => 0
  | S n' =>
      match s1, s2 with
      | EmptyString, EmptyString => 0
      | EmptyString, String _ _ => -1
      | String _ _, EmptyString => 1
      | String a s1', String b s2' =>
          if Ascii.eqb a b then strncmp s1' s2' n'
          else if uchar a <? uchar b then -1 else 1
      end
  end.

(** A pointer that is read through. *)
Definition deref (p : option string) : res string :=
  match p with
  | Some s => Ret s
  | None => Undef NullDeref
  end.

(** ** [strcpy], [strcat] and [sprintf] into an array *)

(** The string [s] written to an array of [size] bytes, as [strcpy] and
    [sprintf] leave it: its characters and the [NUL] after them have to
    fit. *)
Definition put (size : nat) (s : string) : res string :=
  if (String.length s <? size)%nat then Ret s else Undef BufferOverrun.

(** ** [strtok] *)

(** [strtok] keeps the place where the next search starts in a hidden
    static pointer. The model returns that place next to the token, and a
    call [strtok(NULL, delim)] is a call on the place the previous call
    returned. The token is what the caller reads at the pointer returned:
    the characters up to the NUL written over the delimiter. *)

(** The string a call [strtok(str, delim)] scans: [str], or the saved
    place when [str] is [NULL]. *)
Definition scanned (str : option string) (saved : string) : string :=
  match str with
  | Some s => s
  | None => saved
  end.

(** Past the leading delimiters ([s + strspn(s, delim)]). *)
Fixpoint skip_delims (s delim : string) : string :=
  match s with
  | String c s' => if strchr delim c then skip_delims s' delim else s
  | EmptyString => EmptyString
  end.

(** The token at the start of [s] and the place after the delimiter that
    ends it (the end of the string when no delimiter follows). *)
Fixpoint cut_token (s delim : string) : string * string :=
  match s with
  | EmptyString => (EmptyString, EmptyString)
  | String c s' =>
      if strchr delim c then (EmptyString, s')
      else let (tok, save) := cut_token s' delim in (String c tok, save)
  end.

Definition strtok (s delim : string) : option string * string :=
  match skip_delims s delim with
  | EmptyString => (None, EmptyString)
  | s1 => let (tok, save) := cut_token s1 delim in (Some tok, save)
  end.

(** Each token [strtok] returns uses up at least one character: the loops
    over its tokens terminate. *)

Lemma cut_token_length s d tok save :
  cut_token s d = (tok, save) -> (String.length save <= String.length s)%nat.
Proof.
  revert tok save; induction s as [|c s IH]; simpl; intros tok save H.
  - inversion H; simpl; lia.
  - destruct (strchr d c).
    + inversion H; subst; lia.
    + destruct (cut_token s d) as [t r] eqn:E. inversion H; subst.
      specialize (IH _ _ eq_refl). lia.
Qed.

Lemma skip_delims_length s d :
  (String.length (skip_delims s d) <= String.length s)%nat.
Proof.
  induction s as [|c s IH]; simpl; [lia|].
  destruct (strchr d c); simpl; lia.
Qed.

Lemma strtok_save_length s d tok save :
  strtok s d = (Some tok, save) -> (String.length save < String.length s)%nat.
Proof.
  unfold strtok. pose proof (skip_delims_length s d) as L.
  destruct (skip_delims s d) as [|c s1] eqn:E; [discriminate|].
  simpl. destruct (strchr d c).
  - intros H; inversion H; subst. simpl in L. lia.
  - destruct (cut_token s1 d) as [t r] eqn:C. intros H; inversion H; subst.
    apply cut_token_length in C. simpl in L. lia.
Qed.

End CLib.

(* ================================================================== *)
(** * server.c *)
(* ================================================================== *)

Module Server.
Import CLib.

Definition nl : string := String (ascii_of_nat 10) EmptyString.

Definition REGID_MAX : nat := 6.

(** [struct registerlist]; the [next] pointer is the tail of the list. *)
Record registers_t : Type := mkreg {
  regid : string;
  regvalue : Z;
  bounds : string
}.

(** The server globals [regs] and [numofregs]. *)
Record globals : Type := mkglobals {
  regs : list registers_t;
  numofregs : Z
}.

(** The globals when [main] starts. *)
Definition globals0 : globals := {| regs := []; numofregs := 0 |}.

(** [n++] on an [int]. *)
Definition incr (n : Z) : res Z :=
  if n <? INT_MAX then Ret (n + 1) else Undef IntOverflow.

Definition init_reglist (g : globals) : res globals :=
  n <- incr (numofregs g) ;;
  Ret {| regs := [ {| regid := "REG1"; regvalue := 0; bounds := "0-16535" |} ];
         numofregs := n |}.

(** The traversal of [add_register]: [current] walks to the node whose
    [next] is [NULL], and that pointer is set to [new]. *)
Fixpoint link_last (current : list registers_t) (new : registers_t)
  : res (list registers_t) :=
  match current with
  | [] => Undef NullDeref
  | [r] => Ret [r; new]
  | r :: next => rest <- link_last next new ;; Ret (r :: rest)
  end.

(** [stringnum], [tempid] and the field [regid] hold [REGID_MAX] bytes. *)
Definition add_register (value : Z) (bnds : string) (g : globals) : res globals :=
  n <- incr (numofregs g) ;;
  stringnum <- put REGID_MAX (itoa n) ;;
  tempid <- put REGID_MAX ("REG" ++ stringnum) ;;
  new_regid <- put REGID_MAX tempid ;;
  let new := {| regid := new_regid; regvalue := value; bounds := bnds |} in
  rs <- link_last (regs g) new ;;
  Ret {| regs := rs; numofregs := n |}.

Fixpoint print_register (targetid : option string) (current : list registers_t)
  : res Z :=
  match current with
  | [] => Ret (-1)
  | r :: next =>
      t <- deref targetid ;;
      if strcmp (regid r) t =? 0 then Ret (regvalue r)
      else print_register targetid next
  end.

(** The result is the [bounds] field of the register found, or [NULL]. *)
Fixpoint print_bounds (targetid : option string) (current : list registers_t)
  : res (option string) :=
  match current with
  | [] => Ret None
  | r :: next =>
      t <- deref targetid ;;
      if strcmp (regid r) t =? 0 then Ret (Some (bounds r))
      else print_bounds targetid next
  end.

(** ** [bound_check] *)

Definition inspect {A : Type} (a : A) : {b : A | a = b} := exist _ a eq_refl.

(** What is left of the loop over the pieces: nothing once [token] is
    [NULL], else at most one round per character after the saved place. *)
Definition loop_measure (token : option string) (save : string) : nat :=
  match token with
  | Some _ => S (String.length save)
  | None => O
  end.

(** The [while (token != NULL)] loop of the distinct case; [save] is the
    place [strtok(NULL, "|")] goes on from. *)
Equations? distinct_loop (target_value : Z) (token : option string) (save : string)
  : res Z by wf (loop_measure token save) lt :=
distinct_loop target_value None save := Ret (-1);
distinct_loop target_value (Some tok) save with atoi (Some tok) := {
  | Undef f => Undef f
  | Ret distinctnum with (target_value =? distinctnum) := {
     | true => Ret 0
     | false with inspect (strtok save "|") := {
        | exist _ (token', save') Heq =>
            distinct_loop target_value token' save' } } }.
Proof.
  destruct token' as [t|]; simpl; [|lia].
  apply strtok_save_length in Heq. lia.
Qed.

(** [0] when the value is allowed, [-1] when it is not. In the
    continuous case [&&] evaluates [atoi(upper_bound)] only when the
    first comparison holds. *)
Definition bound_check (target_value : Z) (bnds : string) : res Z :=
  let helper := bnds in
  if strchr helper "|" then
    let (token, save) := strtok helper "|" in
    distinct_loop target_value token save
  else
    let (lower_bound, save) := strtok helper "-" in
    let (upper_bound, _) := strtok save "-" in
    lo <- atoi lower_bound ;;
    if target_value >? lo then
      hi <- atoi upper_bound ;;
      if target_value <? hi then Ret 0 else Ret (-1)
    else Ret (-1).

(** ** [replace_value] *)

(** The result code ([0], [-1] or [-2]) and the list after the call. *)
Fixpoint replace_value (target_value : Z) (targetid : option string)
  (current : list registers_t) : res (Z * list registers_t) :=
  match current with
  | [] => Ret (-2, [])
  | r :: next =>
      t <- deref targetid ;;
      if strcmp (regid r) t =? 0 then
        boundcheck_result <- bound_check target_value (bounds r) ;;
        if negb (boundcheck_result =? -1) then
          Ret (0, {| regid := regid r; regvalue := target_value;
                     bounds := bounds r |} :: next)
        else Ret (-1, r :: next)
      else
        rest <- replace_value target_value targetid next ;;
        Ret (fst rest, r :: snd rest)
  end.

(** [clear_regs]: every node is freed and [regs] is [NULL]. *)
Definition clear_regs (g : globals) : globals :=
  {| regs := []; numofregs := numofregs g |}.

(** ** [process_insertion] *)

Definition process_insertion (target_request : string) (g : globals)
  : res globals :=
  let (_, save) := strtok target_request "+" in
  let (token, save) := strtok save "+" in
  reg_value <- atoi token ;;
  let (token, _) := strtok save "+" in
  reg_bounds <- deref token ;;
  add_register reg_value reg_bounds g.

(** ** [process_atcommand] *)

(** The globals after the call, the message written to the port and the
    result code. *)
Definition process_atcommand (target_request : string) (g : globals)
  : res (globals * string * Z) :=
  if strncmp target_request "AT+REG" 6 =? 0 then
    let (main_command, save) := strtok target_request "=" in
    let (target_value, save) := strtok save "=" in
    let (at_section, save) := strtok (scanned main_command save) "+" in
    let (target_regid, _) := strtok save "+" in
    match target_value with
    | None =>
        reg_result <- print_register target_regid (regs g) ;;
        if negb (reg_result =? -1) then
          reg_result_string <- put 2 (itoa reg_result ++ nl) ;;
          Ret (g, reg_result_string, 0)
        else Ret (g, "INVALID REGISTER" ++ nl, 1)
    | Some tv =>
        if strcmp tv "?" =? 0 then
          reg_bounds <- print_bounds target_regid (regs g) ;;
          match reg_bounds with
          | Some b => Ret (g, b, 0)
          | None => Ret (g, "INVALID REGISTER" ++ nl, 1)
          end
        else
          requested_value <- atoi target_value ;;
          swap <- replace_value requested_value target_regid (regs g) ;;
          let (value_swap_check, rs) := swap in
          let g' := {| regs := rs; numofregs := numofregs g |} in
          if value_swap_check =? -2 then Ret (g', "INVALID REGISTER" ++ nl, 1)
          else if value_swap_check =? -1 then Ret (g', "InvalidInput" ++ nl, 2)
          else Ret (g', "OK" ++ nl, 0)
    end
  else Ret (g, "INVALID AT-COMMAND" ++ nl, 3).

(** ** [main] *)

(** The register list [main] builds before it opens the port. *)
Definition startup : res globals :=
  g <- init_reglist globals0 ;;
  add_register 3 "1|2|3" g.

Inductive control : Type := Continue | Break.

(** One round of the [while (1)] loop on the request read from the port:
    the globals after it, the message written, and whether the loop goes
    on. *)
Definition serve (request : string) (g : globals)
  : res (globals * string * control) :=
  if strncmp request "insert" 6 =? 0 then
    let insertion := request in
    g' <- process_insertion insertion g ;;
    Ret (g', "INSERTION COMPLETE" ++ nl, Continue)
  else if strncmp request "quit" 4 =? 0 then
    Ret (g, "TERMINATING" ++ nl, Break)
  else
    r <- process_atcommand request g ;;
    let '(g', msg, _) := r in
    Ret (g', msg, Continue).

(** The loop over the requests that arrive, with the messages written in
    order; after [break] the list is cleared and the later requests are
    never read. *)
Fixpoint main_loop (requests : list string) (g : globals)
  : res (globals * list string) :=
  match requests with
  | [] => Ret (g, [])
  | request :: later =>
      r <- serve request g ;;
      let '(g', msg, ctl) := r in
      match ctl with
      | Break => Ret (clear_regs g', [msg])
      | Continue =>
          r' <- main_loop later g' ;;
          Ret (fst r', msg :: snd r')
      end
  end.

Definition main (requests : list string) : res (globals * list string) :=
  g <- startup ;;
  main_loop requests g.

End Server.

(* ================================================================== *)
(** * The vocabulary of the statements *)
(* ================================================================== *)

Module Model.
Import CLib Server.

(** ** Strings and tokens *)

(** No character of [s] is one of [delim]. *)
Fixpoint free_of (s delim : string) : bool :=
  match s with
  | EmptyString => true
  | String c s' => negb (strchr delim c) && free_of s' delim
  end.

Fixpoint all_digits (s : string) : bool :=
  match s with
  | EmptyString => true
  | String c s' => isdigit c && all_digits s'
  end.

(** A delimiter set that holds neither a digit nor the minus sign. *)
Definition no_numeral_char (d : string) : Prop :=
  forall c, isdigit c = true \/ c = "-"%char -> strchr d c = false.

(** The pieces between the delimiters, the empty ones too. *)
Fixpoint pieces (s delim : string) : list string :=
  match s with
  | EmptyString => [EmptyString]
  | String a s' =>
      if strchr delim a then EmptyString :: pieces s' delim
      else match pieces s' delim with
           | p :: ps => String a p :: ps
           | [] => [String a EmptyString]
           end
  end.

Definition nonempty (p : string) : bool := negb (String.eqb p "").

(** The pieces [strtok] visits: it steps over the empty ones. *)
Definition tokens (s delim : string) : list string :=
  filter nonempty (pieces s delim).

(** Every piece holds a number that fits an [int]. *)
Definition int_pieces (ts : list string) : Prop :=
  Forall (fun t => in_int (leading_int t) = true) ts.

(** The piece [t] begins with the integer [x]. *)
Definition reads_as (x : Z) (t : string) : bool := leading_int t =? x.

(** A piece of a continuous bounds string: not empty, and free of both
    separators. *)
Definition plain (p : string) : Prop :=
  p <> "" /\ free_of p "-" = true /\ free_of p "|" = true.

(** The bounds string [lo-hi] as [sprintf "%d-%d"] writes it. *)
Definition range_string (lo hi : Z) : string := itoa lo ++ "-" ++ itoa hi.

(** ** Requests *)

(** The part of a register id after ["REG"]: free of the two separators
    of an AT command. *)
Definition id_suffix (sfx : string) : Prop :=
  free_of sfx "=" = true /\ free_of sfx "+" = true.

(** The token after the ['='] of a write: not empty, free of ['='] and
    not the question mark. *)
Definition value_token (tok : string) : Prop :=
  tok <> "" /\ free_of tok "=" = true /\ tok <> "?".

(** A field of the request [insert+<value>+<bounds>]: not empty and free
    of ['+']. *)
Definition insert_field (t : string) : Prop :=
  t <> "" /\ free_of t "+" = true.

(** The request [AT+REG<sfx>=<x>] of a client that writes the integer [x]. *)
Definition write_request (sfx : string) (x : Z) : string :=
  "AT+REG" ++ sfx ++ "=" ++ itoa x.

(** The request [insert+<v>+<b>] of a client that inserts a register. *)
Definition insert_request (v : Z) (b : string) : string :=
  "insert+" ++ itoa v ++ "+" ++ b.

(** ** The register list *)

(** The first register whose id is [id]: the node at which the three
    traversals of the list stop. *)
Fixpoint lookup (id : string) (rs : list registers_t) : option registers_t :=
  match rs with
  | [] => None
  | r :: next => if String.eqb (regid r) id then Some r else lookup id next
  end.

(** The list with [v] stored in the first register whose id is [id]. *)
Fixpoint store_value (id : string) (v : Z) (rs : list registers_t)
  : list registers_t :=
  match rs with
  | [] => []
  | r :: next =>
      if String.eqb (regid r) id
      then {| regid := regid r; regvalue := v; bounds := bounds r |} :: next
      else r :: store_value id v next
  end.

(** The globals with [v] stored in the register [id]. *)
Definition stored (id : string) (v : Z) (g : globals) : globals :=
  {| regs := store_value id v (regs g); numofregs := numofregs g |}.

(** The register an insertion appends when the counter is [n]. *)
Definition appended (n v : Z) (b : string) : registers_t :=
  {| regid := "REG" ++ itoa (n + 1); regvalue := v; bounds := b |}.

(** What a register is to the protocol besides its value. *)
Definition schema (rs : list registers_t) : list (string * string) :=
  map (fun r => (regid r, bounds r)) rs.

(** The bounds string the schema gives the id [id]. *)
Fixpoint schema_find (id : string) (sch : list (string * string)) : option string :=
  match sch with
  | [] => None
  | (i, b) :: rest => if String.eqb i id then Some b else schema_find id rest
  end.

(** The id of the [i]-th register of the list, counted from one. *)
Definition reg_name (i : nat) : string := "REG" ++ itoa (Z.of_nat i).

(** The ids of a list of [n] registers. *)
Definition names (n : nat) : list string := map reg_name (seq 1 n).

(** The invariant of the list: the counter is its length and the ids are
    [REG1], [REG2], ... in list order. *)
Record numbered (g : globals) : Prop := {
  numbered_count : numofregs g = Z.of_nat (List.length (regs g));
  numbered_ids : map regid (regs g) = names (List.length (regs g));
  numbered_head : regs g <> []
}.

(** ** The states of the server *)

(** The globals once [main] has built its two registers. *)
Definition two_registers : globals :=
  {| regs := [ {| regid := "REG1"; regvalue := 0; bounds := "0-16535" |};
               {| regid := "REG2"; regvalue := 3; bounds := "1|2|3" |} ];
     numofregs := 2 |}.

(** [evolves g g']: the loop takes the globals from [g] to [g'] in some
    rounds, none of them the last. *)
Inductive evolves : globals -> globals -> Prop :=
| evolves_refl g : evolves g g
| evolves_step g request g1 msg g2 :
    serve request g = Ret (g1, msg, Continue) -> evolves g1 g2 -> evolves g g2.

(** The globals the server can be in when it waits for a request. *)
Definition reachable (g : globals) : Prop :=
  exists g0, startup = Ret g0 /\ evolves g0 g.

End Model.

(* ================================================================== *)
(** * The specification's own notions *)
(* ================================================================== *)

Module Spec.
Import CLib Server Model.

(** A valid integer literal: an optional minus sign, then one digit at
    least, and nothing else. *)
Definition int_literal (s : string) : bool :=
  match s with
  | String "-" d => nonempty d && all_digits d
  | d => nonempty d && all_digits d
  end.

(** A piece parsed as an integer; a piece that is not a literal has no
    value. *)
Definition literal_value (s : string) : option Z :=
  if int_literal s then Some (leading_int s) else None.

(** The discrete shape: the string contains the separator ['|']. *)
Definition discrete_shape (b : string) : bool := strchr b "|".

(** [pre] being what was read so far, is there a ['-'] in [s] with an
    integer literal on each side? *)
Fixpoint splits_at_dash (pre s : string) : bool :=
  match s with
  | EmptyString => false
  | String c s' =>
      (Ascii.eqb c "-" && int_literal pre && int_literal s')
      || splits_at_dash (pre ++ String c EmptyString) s'
  end.

(** The continuous shape: an integer, a ['-'], and an integer. *)
Definition continuous_shape (b : string) : bool := splits_at_dash "" b.

(** [s] without the prefix [p], when it starts with it. *)
Fixpoint strip_prefix (p s : string) : option string :=
  match p, s with
  | EmptyString, _ => Some s
  | String a p', String b s' => if Ascii.eqb a b then strip_prefix p' s' else None
  | String _ _, EmptyString => None
  end.

(** [s] cut at its first [c]. *)
Fixpoint break_at (c : ascii) (s : string) : option (string * string) :=
  match s with
  | EmptyString => None
  | String a s' =>
      if Ascii.eqb a c then Some (EmptyString, s')
      else match break_at c s' with
           | Some (l, r) => Some (String a l, r)
           | None => None
           end
  end.

(** The productions of the wire grammar: [quit], [insert+<int>+<bounds>],
    [AT+REG<N>], [AT+REG<N>=?] and [AT+REG<N>=<token>]. *)
Definition in_grammar (request : string) : bool :=
  String.eqb request "quit"
  || match strip_prefix "insert+" request with
     | Some rest =>
         match break_at "+" rest with
         | Some (i, b) => int_literal i && nonempty b
         | None => false
         end
     | None => false
     end
  || match strip_prefix "AT+REG" request with
     | Some rest =>
         match break_at "=" rest with
         | Some (n, tok) => nonempty n && all_digits n && nonempty tok
         | None => nonempty rest && all_digits rest
         end
     | None => false
     end.

(** A token that begins a number: white space, an optional sign, a
    digit. *)
Definition head_is_digit (s : string) : bool :=
  match s with
  | String c _ => isdigit c
  | EmptyString => false
  end.

Definition starts_number (s : string) : bool :=
  match skip_space s with
  | String "-" s' => head_is_digit s'
  | String "+" s' => head_is_digit s'
  | s' => head_is_digit s'
  end.

End Spec.

(* ================================================================== *)
(** * Bounds strings written from lists *)
(* ================================================================== *)

Module Bounds.
Import CLib.

(** The bounds string [v1|v2|...|vn] of a list of integers. *)
Definition discrete_string (vs : list Z) : string :=
  String.concat "|" (map itoa vs).

End Bounds.

(* ================================================================== *)
(** * commonfunc.c *)
(* ================================================================== *)

Module Common.

(** [my_read] and [my_write] call [read] and [write] until the count
    asked for is reached. The system's side is a list of answers, one
    per call in order: the number of bytes transferred, [0] when there is
    nothing more, [-1] for an error. A function returns its total and
    the calls it made, each with its answer; it has no result when the
    answers run out before its loop ends. Totals are [ssize_t] and stay
    far from its limits: they are plain [Z]. *)

(** The call [read(fd, buf + offset, asked)], or [write] alike. *)
Record call : Type := mkcall {
  offset : Z;
  asked : Z
}.

Definition trace : Type := list (call * Z).

Definition log (c : call) (a : Z) (r : option (Z * trace)) : option (Z * trace) :=
  match r with
  | Some (total, calls) => Some (total, (c, a) :: calls)
  | None => None
  end.

(** The [while] loop of [my_read], entered with the totals so far and
    the answer [bytes_read] of the last call. *)
Fixpoint read_loop (answers : list Z) (bytes_needed total_read bytes_read : Z)
  : option (Z * trace) :=
  if (total_read <? bytes_needed) && negb (bytes_read =? 0) then
    match answers with
    | [] => None
    | a :: rest =>
        let bytes_remaining := bytes_needed - total_read in
        log {| offset := total_read; asked := bytes_remaining |} a
            (read_loop rest bytes_needed (total_read + a) a)
    end
  else Some (total_read, []).

Definition my_read (count : Z) (answers : list Z) : option (Z * trace) :=
  match answers with
  | [] => None
  | a :: rest =>
      log {| offset := 0; asked := count |} a (read_loop rest count a a)
  end.

(** The [while] loop of [my_write]: an answer [0] does not end it. *)
Fixpoint write_loop (answers : list Z) (bytes_needed total_written : Z)
  : option (Z * trace) :=
  if total_written <? bytes_needed then
    match answers with
    | [] => None
    | a :: rest =>
        let bytes_remaining := bytes_needed - total_written in
        log {| offset := total_written; asked := bytes_remaining |} a
            (write_loop rest bytes_needed (total_written + a))
    end
  else Some (total_written, []).

Definition my_write (count : Z) (answers : list Z) : option (Z * trace) :=
  match answers with
  | [] => None
  | a :: rest =>
      log {| offset := 0; asked := count |} a (write_loop rest count a)
  end.

(** ** The vocabulary of the statements *)

(** The calls follow one another: each starts where the total stands,
    [start] at first, and asks for what is missing to [needed]. *)
Fixpoint chained (needed start : Z) (calls : trace) : Prop :=
  match calls with
  | [] => True
  | (c, a) :: rest =>
      offset c = start /\ asked c = needed - start /\ chained needed (start + a) rest
  end.

(** The system transfers what it is asked for at most, and reports no
    error. *)
Definition polite (calls : trace) : Prop :=
  Forall (fun ca => 0 <= snd ca <= asked (fst ca)) calls.

Definition transferred (calls : trace) : Z :=
  fold_right (fun ca s => snd ca + s) 0 calls.

(** The answer of the last call. *)
Definition last_answer (calls : trace) : Z :=
  last (map snd calls) 0.

End Common.

(* ================================================================== *)
(** * client.c *)
(* ================================================================== *)

Module Client.
Import CLib.

Definition MAX_STRING : Z := 512.
Definition MAX_ENTRIES : nat := 30.
Definition INITIAL_REGS : Z := 2.
Definition MAX_RESPONSE_SIZE : nat := 20.

(** A step of the client is undefined where a call of the C library is,
    and where it writes past the end of an array. Two arrays are
    followed: [reg_pos], of two bytes, and [menu], of [MAX_STRING]
    places. The word typed is taken to fit [request], of [MAX_STRING]
    bytes; the strings copied to the other arrays of that size are then
    shorter. *)
Inductive failure : Type :=
| Library (f : CLib.fault)
| Overrun.

Inductive outcome (A : Type) : Type :=
| Done (a : A)
| Crash (f : failure).

Arguments Done {A} a.
Arguments Crash {A} f.

Definition lift {A : Type} (m : res A) : outcome A :=
  match m with
  | Ret a => Done a
  | Undef f => Crash (Library f)
  end.

Definition andthen {A B : Type} (m : outcome A) (k : A -> outcome B) : outcome B :=
  match m with
  | Done a => k a
  | Crash f => Crash f
  end.

Notation "x <~ m ;; k" := (andthen m (fun x => k))
  (at level 61, m at next level, right associativity).

(** The globals of the client: the array [menu] of lines ([NULL] where
    there is none), [last_entry] and [reg_count]. *)
Record state : Type := mkclient {
  menu : Z -> option string;
  last_entry : Z;
  reg_count : Z
}.

(** The seven lines the array is initialised with. *)
Definition initial_menu : list string :=
  [ "~ Available AT Commands:";
    "~ REG1: Read the 1st register's value -> Response: <int>";
    "~ REG1=?: Read the list of all allowed values for 1st register";
    "~ REG1=<int>: Write the provided integer to the 1st register -> Response: OK|InvalidInput";
    "~ REG2: Read the 2nd register's value -> Response: <int>";
    "~ REG2=?: Read the list of all allowed values for 2nd register";
    "~ REG2=<int>: Write the provided integer to the 2nd register -> Response: OK|InvalidInput" ].

(** The globals when [main] starts. *)
Definition state0 : state :=
  {| menu := fun i => if i <? 0 then None else nth_error initial_menu (Z.to_nat i);
     last_entry := 7;
     reg_count := INITIAL_REGS |}.

Definition set_entry (i : Z) (line : string) (m : Z -> option string)
  : Z -> option string :=
  fun j => if j =? i then Some line else m j.

(** [menu[i] = strdup(line)]. *)
Definition store_entry (i : Z) (line : string) (m : Z -> option string)
  : outcome (Z -> option string) :=
  if (0 <=? i) && (i <? MAX_STRING) then Done (set_entry i line m)
  else Crash Overrun.

(** [sprintf(buf, "%d", n)] where [buf] holds [size] bytes: the
    characters and the [NUL] after them have to fit. *)
Definition sprintf_int (size : nat) (n : Z) : outcome string :=
  if (String.length (itoa n) <? size)%nat then Done (itoa n)
  else Crash Overrun.

(** The lines [print_help] prints: the entries of the first
    [MAX_ENTRIES] places that are not [NULL]. *)
Definition print_help (g : state) : list string :=
  flat_map (fun i => match menu g (Z.of_nat i) with
                     | Some line => [line]
                     | None => []
                     end)
           (seq 0 MAX_ENTRIES).

(** The three lines of the register [reg_string], whose number is
    [reg_count]. *)
Definition read_line (reg_string : string) (reg_count : Z) : string :=
  "~ " ++ reg_string ++ ": Read the value of register " ++ itoa reg_count
  ++ " -> Response: <int>".

Definition bounds_line (reg_string : string) (reg_count : Z) : string :=
  "~ " ++ reg_string ++ "=?: Read the list of all allowed values for register "
  ++ itoa reg_count.

Definition write_line (reg_string : string) (reg_count : Z) : string :=
  "~ " ++ reg_string ++ "=<int>: Write the provided integer to register "
  ++ itoa reg_count ++ " -> Response: OK|InvalidInput".

(** [last_entry + 1] and the like do not overflow where they are
    computed: the store at [last_entry] before them has checked the
    index. *)
Definition update_menu (request : string) (g : state) : outcome state :=
  let (_, save) := strtok request "+" in
  let (_, save) := strtok save "+" in
  let (token, _) := strtok save "+" in
  reg_bounds <~ lift (deref token) ;;
  reg_pos <~ sprintf_int 2 (reg_count g) ;;
  let reg_string := "REG" ++ reg_pos in
  m <~ store_entry (last_entry g)
         (read_line reg_string (reg_count g)) (menu g) ;;
  m <~ store_entry (last_entry g + 1)
         (bounds_line reg_string (reg_count g)) m ;;
  m <~ store_entry (last_entry g + 2)
         (write_line reg_string (reg_count g)) m ;;
  Done {| menu := m; last_entry := last_entry g + 3; reg_count := reg_count g |}.

(** What one round of the loop of [main] does with the word typed: it
    shows the menu, or it hands the request to [send_request]. The
    answer of the server is printed and used for nothing else. *)
Inductive effect : Type :=
| Shown (lines : list string)
| Sent (request : string).

Definition round (request : string) (g : state)
  : outcome (state * effect * Server.control) :=
  if strcmp request "help" =? 0 then
    Done (g, Shown (print_help g), Server.Continue)
  else if strcmp request "quit" =? 0 then
    Done (g, Sent request, Server.Break)
  else if strncmp request "insert" 6 =? 0 then
    n <~ lift (Server.incr (reg_count g)) ;;
    let insertproperties := request in
    g' <~ update_menu insertproperties
            {| menu := menu g; last_entry := last_entry g; reg_count := n |} ;;
    Done (g', Sent request, Server.Continue)
  else
    Done (g, Sent request, Server.Continue).

(** [send_request] writes the first [MAX_RESPONSE_SIZE] bytes of the
    array that holds the request, and the server reads as many into the
    array it takes its request from. The C string the server finds there
    is the request when its [NUL] is among these bytes; otherwise the
    string has no end in them. *)
Definition delivered (request : string) : option string :=
  if (String.length request <? MAX_RESPONSE_SIZE)%nat then Some request
  else None.

(** ** The vocabulary of the statements *)

(** The globals of the client after some rounds, starting from [state0]. *)
Inductive reached : state -> Prop :=
| reached_start : reached state0
| reached_round g request g' e ctl :
    reached g -> round request g = Done (g', e, ctl) -> reached g'.

(** The places below [last_entry] hold a line and the others hold none. *)
Definition filled (g : state) : Prop :=
  forall i, (exists line, menu g i = Some line) <-> 0 <= i < last_entry g.

(** The menu after the three stores of [update_menu]. *)
Definition three_lines (g : state) : Z -> option string :=
  set_entry (last_entry g + 2)
    (write_line ("REG" ++ itoa (reg_count g)) (reg_count g))
    (set_entry (last_entry g + 1)
       (bounds_line ("REG" ++ itoa (reg_count g)) (reg_count g))
       (set_entry (last_entry g)
          (read_line ("REG" ++ itoa (reg_count g)) (reg_count g))
          (menu g))).

(** The lines printed from the first [k] places. *)
Definition shown_upto (g : state) (k : nat) : list string :=
  flat_map (fun i => match menu g (Z.of_nat i) with
                     | Some line => [line]
                     | None => []
                     end)
           (seq 0 k).

End Client.

(* ================================================================== *)
(** * Facts about the C library *)
(* ================================================================== *)

Module CFacts.
Import CLib Model.

(** ** Strings *)

Lemma append_assoc (a b c : string) : (a ++ b) ++ c = a ++ (b ++ c).
Proof. induction a; simpl; congruence. Qed.

Lemma strcmp_eq (s t : string) : strcmp s t = 0 <-> s = t.
Proof.
  revert t; induction s as [|a s IH]; intros [|b t]; simpl;
    try (split; [lia | discriminate]); try tauto.
  destruct (Ascii.eqb_spec a b) as [->|Hab].
  - rewrite IH. split; congruence.
  - destruct (uchar a <? uchar b); split; try lia; congruence.
Qed.

Lemma strcmp_refl (s : string) : strcmp s s = 0.
Proof. now apply strcmp_eq. Qed.

Lemma strcmp_eqb (s t : string) : (strcmp s t =? 0) = String.eqb s t.
Proof.
  destruct (String.eqb_spec s t) as [->|H].
  - now rewrite strcmp_refl.
  - apply Z.eqb_neq. now rewrite strcmp_eq.
Qed.

(** [strncmp s p (length p) == 0] says that [p] is a prefix of [s]. *)
Lemma strncmp_prefix (s p : string) :
  (strncmp s p (String.length p) =? 0) = String.prefix p s.
Proof.
  revert s; induction p as [|b p IH]; intros [|a s]; simpl; try reflexivity.
  destruct (Ascii.eqb_spec a b) as [->|Hab].
  - destruct (ascii_dec b b); [apply IH | congruence].
  - destruct (ascii_dec b a); [congruence|].
    now destruct (uchar a <? uchar b).
Qed.

Lemma prefix_append (p s : string) : String.prefix p (p ++ s) = true.
Proof.
  induction p as [|b p IH]; simpl; [now destruct s|].
  destruct (ascii_dec b b); [exact IH | congruence].
Qed.

(** ** Tokens *)

Section Tokens.

(** The delimiters of the calls to [strtok] under study. *)
Variable d : string.

Lemma free_of_append s t :
  free_of (s ++ t) d = free_of s d && free_of t d.
Proof. induction s; simpl; [reflexivity | rewrite IHs; apply andb_assoc]. Qed.

Lemma cut_token_delim p c r :
  free_of p d = true -> strchr d c = true ->
  cut_token (p ++ String c r) d = (p, r).
Proof.
  intros Hp Hc; induction p as [|a p IH]; simpl in *.
  - now rewrite Hc.
  - apply andb_prop in Hp as [Ha Hp]. apply negb_true_iff in Ha.
    rewrite Ha, (IH Hp). reflexivity.
Qed.

Lemma cut_token_end p :
  free_of p d = true -> cut_token p d = (p, "").
Proof.
  induction p as [|a p IH]; simpl; [reflexivity|].
  intros Hp. apply andb_prop in Hp as [Ha Hp]. apply negb_true_iff in Ha.
  now rewrite Ha, (IH Hp).
Qed.

(** A token that a delimiter ends: the search goes on after it. *)
Lemma strtok_delim p c r :
  p <> "" -> free_of p d = true -> strchr d c = true ->
  strtok (p ++ String c r) d = (Some p, r).
Proof.
  intros Hne Hp Hc. unfold strtok.
  destruct p as [|a p]; [congruence|]. simpl in *.
  apply andb_prop in Hp as [Ha Hp]. apply negb_true_iff in Ha.
  rewrite Ha. simpl. rewrite Ha, (cut_token_delim _ _ _ Hp Hc). reflexivity.
Qed.

(** A token that the end of the string ends: the next call returns
    [NULL]. *)
Lemma strtok_end p :
  p <> "" -> free_of p d = true -> strtok p d = (Some p, "").
Proof.
  intros Hne Hp. unfold strtok.
  destruct p as [|a p]; [congruence|]. simpl in *.
  apply andb_prop in Hp as [Ha Hp]. apply negb_true_iff in Ha.
  rewrite Ha. simpl. rewrite Ha, (cut_token_end _ Hp). reflexivity.
Qed.

(** A leading delimiter is stepped over. *)
Lemma strtok_skip c s :
  strchr d c = true -> strtok (String c s) d = strtok s d.
Proof. intros Hc. unfold strtok. simpl. now rewrite Hc. Qed.

End Tokens.

(** ** Decimal numerals *)

Ltac by_bits c :=
  destruct c as [[] [] [] [] [] [] [] []]; try reflexivity; try discriminate.

Lemma digit_cases d : 0 <= d < 10 ->
  d = 0 \/ d = 1 \/ d = 2 \/ d = 3 \/ d = 4 \/ d = 5 \/ d = 6 \/ d = 7 \/
  d = 8 \/ d = 9.
Proof. lia. Qed.

Lemma digit_char_isdigit d : 0 <= d < 10 -> isdigit (digit_char d) = true.
Proof. intros H. destruct (digit_cases d H) as [->|H']; [reflexivity|].
  repeat (destruct H' as [->|H']; [reflexivity|]). now subst. Qed.

Lemma digit_value_char d : 0 <= d < 10 -> digit_value (digit_char d) = d.
Proof. intros H. destruct (digit_cases d H) as [->|H']; [reflexivity|].
  repeat (destruct H' as [->|H']; [reflexivity|]). now subst. Qed.

Lemma all_digits_append s t :
  all_digits (s ++ t) = all_digits s && all_digits t.
Proof. induction s; simpl; [reflexivity | rewrite IHs; apply andb_assoc]. Qed.

Lemma digits_value_append s r acc :
  all_digits s = true ->
  digits_value acc (s ++ r) = digits_value (digits_value acc s) r.
Proof.
  revert acc; induction s as [|c s IH]; simpl; intros acc H; [reflexivity|].
  apply andb_prop in H as [Hc Hs]. rewrite Hc. now apply IH.
Qed.

Lemma digits_fuel_spec f n :
  0 <= n < 2 ^ Z.of_nat (S f) ->
  all_digits (digits_fuel (S f) n) = true /\
  digits_fuel (S f) n <> "" /\
  digits_value 0 (digits_fuel (S f) n) = n.
Proof.
  revert n; induction f as [|f IH]; intros n Hn.
  - change (2 ^ Z.of_nat 1) with 2 in Hn.
    assert (Hlt : (n <? 10) = true) by (apply Z.ltb_lt; lia).
    cbn [digits_fuel]. rewrite Hlt. cbn [all_digits digits_value].
    rewrite digit_char_isdigit, digit_value_char by lia.
    repeat split; try discriminate; lia.
  - remember (S f) as k eqn:Ek. cbn [digits_fuel]. destruct (n <? 10) eqn:Hlt.
    + apply Z.ltb_lt in Hlt. cbn [all_digits digits_value].
      rewrite digit_char_isdigit, digit_value_char by lia.
      repeat split; try discriminate; lia.
    + apply Z.ltb_ge in Hlt.
      assert (Hq : 0 <= n / 10 < 2 ^ Z.of_nat k).
      { split; [apply Z.div_pos; lia|].
        apply Z.div_lt_upper_bound; [lia|].
        replace (Z.of_nat (S k)) with (Z.of_nat k + 1) in Hn by lia.
        rewrite Z.pow_add_r in Hn by lia. change (2 ^ 1) with 2 in Hn.
        assert (0 < 2 ^ Z.of_nat k) by (apply Z.pow_pos_nonneg; lia). lia. }
      destruct (IH _ Hq) as (Hd & Hne & Hv).
      pose proof (Z.mod_pos_bound n 10 ltac:(lia)) as Hm.
      repeat split.
      * rewrite all_digits_append, Hd. cbn [all_digits].
        now rewrite digit_char_isdigit by lia.
      * destruct (digits_fuel k (n / 10)); [congruence | discriminate].
      * rewrite digits_value_append by exact Hd. rewrite Hv.
        cbn [digits_value].
        rewrite digit_char_isdigit, digit_value_char by lia.
        pose proof (Z.div_mod n 10 ltac:(lia)). lia.
Qed.

Lemma digits_of_spec n :
  0 <= n ->
  all_digits (digits_of n) = true /\ digits_of n <> "" /\
  digits_value 0 (digits_of n) = n.
Proof.
  intros Hn. unfold digits_of. apply digits_fuel_spec. split; [exact Hn|].
  rewrite Nat2Z.inj_succ, Z2Nat.id by apply Z.log2_nonneg.
  destruct (Z.eq_dec n 0) as [->|Hz]; [reflexivity|].
  apply Z.log2_spec. lia.
Qed.

Lemma leading_int_digit c s :
  isdigit c = true -> leading_int (String c s) = digits_value 0 (String c s).
Proof. by_bits c. Qed.

Lemma leading_int_minus s : leading_int (String "-" s) = - digits_value 0 s.
Proof. reflexivity. Qed.

Lemma leading_int_digits s :
  s <> "" -> all_digits s = true -> leading_int s = digits_value 0 s.
Proof.
  destruct s as [|c s]; [congruence|]. simpl. intros _ H.
  apply andb_prop in H as [Hc _]. now apply leading_int_digit.
Qed.

Lemma leading_int_itoa n : leading_int (itoa n) = n.
Proof.
  unfold itoa. destruct (n <? 0) eqn:Hn.
  - apply Z.ltb_lt in Hn. rewrite leading_int_minus.
    destruct (digits_of_spec (- n)) as (_ & _ & ->); lia.
  - apply Z.ltb_ge in Hn. destruct (digits_of_spec n Hn) as (Hd & Hne & Hv).
    now rewrite leading_int_digits.
Qed.

Lemma atoi_itoa n : in_int n = true -> atoi (Some (itoa n)) = Ret n.
Proof. intros H. unfold atoi. now rewrite leading_int_itoa, H. Qed.

Lemma itoa_inj n m : itoa n = itoa m -> n = m.
Proof. intros H. rewrite <- (leading_int_itoa n), H. apply leading_int_itoa. Qed.

Lemma itoa_nonempty n : itoa n <> "".
Proof.
  unfold itoa. destruct (n <? 0) eqn:Hn; [discriminate|].
  apply Z.ltb_ge in Hn. now destruct (digits_of_spec n Hn) as (_ & Hne & _).
Qed.

(** ** The length of a numeral and the arrays it is written to *)

Lemma string_length_app s t :
  String.length (s ++ t) = (String.length s + String.length t)%nat.
Proof. induction s; simpl; [reflexivity | now rewrite IHs]. Qed.

Lemma digits_fuel_nonempty fuel n : digits_fuel (S fuel) n <> "".
Proof.
  cbn [digits_fuel]. destruct (n <? 10); [discriminate|].
  destruct (digits_fuel fuel (n / 10)); discriminate.
Qed.


(** The numbers below a hundred take two characters at most. *)
Lemma itoa_short n : 0 <= n <= 99 -> (String.length (itoa n) <= 2)%nat.
Proof.
  intros Hn. unfold itoa.
  replace (n <? 0) with false by (symmetry; apply Z.ltb_ge; lia).
  unfold digits_of. cbn [digits_fuel]. destruct (n <? 10) eqn:H10; [simpl; lia|].
  apply Z.ltb_ge in H10. rewrite string_length_app.
  assert (Hlog : 3 <= Z.log2 n).
  { change 3 with (Z.log2 10). apply Z.log2_le_mono. lia. }
  destruct (Z.to_nat (Z.log2 n)) as [|fuel] eqn:Ef; [lia|].
  cbn [digits_fuel].
  replace (n / 10 <? 10) with true
    by (symmetry; apply Z.ltb_lt; apply Z.div_lt_upper_bound; lia).
  simpl. lia.
Qed.


Lemma put_fits size s :
  (String.length s < size)%nat -> put size s = Ret s.
Proof. intros H. unfold put. apply Nat.ltb_lt in H. now rewrite H. Qed.

Lemma put_overruns size s :
  (size <= String.length s)%nat -> put size s = Undef BufferOverrun.
Proof. intros H. unfold put. apply Nat.ltb_ge in H. now rewrite H. Qed.

Lemma put_ret size s t :
  put size s = Ret t -> t = s /\ (String.length s < size)%nat.
Proof.
  unfold put. destruct (String.length s <? size)%nat eqn:E; [|discriminate].
  apply Nat.ltb_lt in E. intros [= <-]. auto.
Qed.

Lemma all_digits_free s d :
  (forall c, isdigit c = true -> strchr d c = false) ->
  all_digits s = true -> free_of s d = true.
Proof.
  intros Hd; induction s as [|c s IH]; simpl; [reflexivity|].
  intros H. apply andb_prop in H as [Hc Hs]. now rewrite (Hd c Hc), IH.
Qed.

Lemma itoa_free n d : no_numeral_char d -> free_of (itoa n) d = true.
Proof.
  intros Hd. unfold itoa. destruct (n <? 0) eqn:Hn.
  - apply Z.ltb_lt in Hn. simpl. rewrite (Hd "-"%char) by now right. simpl.
    apply all_digits_free; [intros; apply Hd; now left|].
    destruct (digits_of_spec (- n)) as (H & _); [lia | exact H].
  - apply Z.ltb_ge in Hn.
    apply all_digits_free; [intros; apply Hd; now left|].
    now destruct (digits_of_spec n Hn) as (H & _).
Qed.

Lemma no_numeral_char_one (a : ascii) :
  isdigit a = false -> a <> "-"%char -> no_numeral_char (String a "").
Proof.
  intros Ha Hm c Hc. simpl. rewrite orb_false_r. apply Ascii.eqb_neq.
  intros ->. destruct Hc as [Hc| ->]; congruence.
Qed.

Lemma no_numeral_char_plus : no_numeral_char "+".
Proof. apply no_numeral_char_one; [reflexivity | discriminate]. Qed.

Lemma no_numeral_char_equal : no_numeral_char "=".
Proof. apply no_numeral_char_one; [reflexivity | discriminate]. Qed.

Lemma no_numeral_char_bar : no_numeral_char "|".
Proof. apply no_numeral_char_one; [reflexivity | discriminate]. Qed.

Create HintDb numerals.
#[export] Hint Resolve no_numeral_char_plus no_numeral_char_equal
  no_numeral_char_bar itoa_nonempty itoa_free : numerals.

End CFacts.

(* ================================================================== *)
(** * Facts about the server *)
(* ================================================================== *)

Module ServerFacts.
Import CLib Server Model Spec CFacts.

(** ** The register list *)

Lemma link_last_app (l : list registers_t) (new : registers_t) :
  l <> [] -> link_last l new = Ret (l ++ [new])%list.
Proof.
  induction l as [|r l IH]; [congruence|]. intros _.
  destruct l as [|r' l]; [reflexivity|].
  change (link_last (r :: r' :: l) new)
    with (rest <- link_last (r' :: l) new ;; Ret (r :: rest)).
  rewrite IH by discriminate. reflexivity.
Qed.

Lemma print_register_lookup id rs :
  print_register (Some id) rs =
  Ret (match lookup id rs with Some r => regvalue r | None => -1 end).
Proof.
  induction rs as [|r rs IH]; simpl; [reflexivity|].
  rewrite strcmp_eqb. now destruct (String.eqb (regid r) id).
Qed.

Lemma print_bounds_lookup id rs :
  print_bounds (Some id) rs = Ret (option_map bounds (lookup id rs)).
Proof.
  induction rs as [|r rs IH]; simpl; [reflexivity|].
  rewrite strcmp_eqb. now destruct (String.eqb (regid r) id).
Qed.

Lemma replace_value_lookup v id rs :
  replace_value v (Some id) rs =
  match lookup id rs with
  | None => Ret (-2, rs)
  | Some r =>
      c <- bound_check v (bounds r) ;;
      if negb (c =? -1) then Ret (0, store_value id v rs) else Ret (-1, rs)
  end.
Proof.
  induction rs as [|r rs IH]; simpl; [reflexivity|].
  rewrite strcmp_eqb. destruct (String.eqb (regid r) id); [reflexivity|].
  rewrite IH. destruct (lookup id rs) as [r'|]; [|reflexivity].
  destruct (bound_check v (bounds r')) as [c|f]; simpl; [|reflexivity].
  now destruct (negb (c =? -1)).
Qed.

(** ** The pieces of a bounds string *)

Lemma cut_token_pieces s d tok save :
  cut_token s d = (tok, save) ->
  exists ps, pieces s d = tok :: ps /\ filter nonempty ps = tokens save d.
Proof.
  revert tok save; induction s as [|a s IH]; simpl; intros tok save H.
  - inversion H; subst. exists []. split; reflexivity.
  - destruct (strchr d a).
    + inversion H; subst. exists (pieces save d). split; reflexivity.
    + destruct (cut_token s d) as [t r] eqn:E. inversion H; subst.
      destruct (IH _ _ eq_refl) as (ps & -> & Hps). exists ps. split; auto.
Qed.

Lemma strtok_tokens s d :
  match strtok s d with
  | (Some tok, save) => tokens s d = tok :: tokens save d
  | (None, _) => tokens s d = []
  end.
Proof.
  induction s as [|a s IH].
  - reflexivity.
  - destruct (strchr d a) eqn:Ha.
    + rewrite (strtok_skip _ _ _ Ha). unfold tokens in *. simpl. rewrite Ha.
      simpl. exact IH.
    + unfold strtok. simpl skip_delims. rewrite Ha.
      destruct (cut_token (String a s) d) as [tok save] eqn:C.
      destruct (cut_token_pieces _ _ _ _ C) as (ps & Hp & Hps).
      unfold tokens at 1. rewrite Hp. simpl filter.
      simpl in C. rewrite Ha in C. destruct (cut_token s d); inversion C; subst.
      simpl. now rewrite Hps.
Qed.

(** ** [bound_check], the distinct case *)

Lemma distinct_loop_some x tok save :
  distinct_loop x (Some tok) save =
  (n <- atoi (Some tok) ;;
   if x =? n then Ret 0
   else let (token, save') := strtok save "|" in distinct_loop x token save').
Proof.
  simp distinct_loop. destruct (atoi (Some tok)) as [n|f]; simpl; simp distinct_loop.
  - destruct (x =? n); simp distinct_loop; [reflexivity|].
    destruct (inspect (strtok save "|")) as [[token save'] Heq].
    simp distinct_loop. now rewrite Heq.
  - reflexivity.
Qed.

Lemma distinct_loop_tokens x save :
  forall tok, int_pieces (tok :: tokens save "|") ->
  distinct_loop x (Some tok) save =
  Ret (if existsb (reads_as x) (tok :: tokens save "|") then 0 else -1).
Proof.
  remember (String.length save) as n eqn:Hn.
  revert save Hn; induction n as [n IH] using lt_wf_ind; intros save Hn tok Hint.
  rewrite distinct_loop_some. inversion Hint as [|? ? Htok Hrest]; subst.
  unfold atoi. rewrite Htok. simpl bind. simpl existsb. unfold reads_as at 1.
  rewrite (Z.eqb_sym x). destruct (leading_int tok =? x); [reflexivity|].
  simpl orb. pose proof (strtok_tokens save "|") as Ht.
  destruct (strtok save "|") as [[t'|] save'] eqn:E.
  - rewrite Ht in *. apply strtok_save_length in E.
    now apply (IH (String.length save')).
  - rewrite Ht. now simp distinct_loop.
Qed.

Lemma bound_check_distinct x b :
  strchr b "|" = true -> int_pieces (tokens b "|") ->
  bound_check x b = Ret (if existsb (reads_as x) (tokens b "|") then 0 else -1).
Proof.
  intros Hbar Hint. unfold bound_check. rewrite Hbar.
  pose proof (strtok_tokens b "|") as Ht.
  destruct (strtok b "|") as [[tok|] save].
  - rewrite Ht in *. now apply distinct_loop_tokens.
  - rewrite Ht. now simp distinct_loop.
Qed.

(** ** [bound_check], the continuous case *)

Lemma strchr_append s t c : strchr (s ++ t) c = strchr s c || strchr t c.
Proof. induction s; simpl; [reflexivity | rewrite IHs; apply orb_assoc]. Qed.

Lemma free_of_strchr s c : free_of s (String c "") = negb (strchr s c).
Proof.
  induction s as [|a s IH]; simpl; [reflexivity|].
  rewrite IH, orb_false_r, negb_orb, (Ascii.eqb_sym c a). reflexivity.
Qed.

Lemma plain_no_bar p : plain p -> strchr p "|" = false.
Proof.
  intros (_ & _ & H). rewrite free_of_strchr in H. now apply negb_true_iff in H.
Qed.

Lemma bound_check_two_tokens x b t1 save t2 save' lo hi :
  strchr b "|" = false ->
  strtok b "-" = (Some t1, save) -> strtok save "-" = (Some t2, save') ->
  atoi (Some t1) = Ret lo -> atoi (Some t2) = Ret hi ->
  bound_check x b = Ret (if (lo <? x) && (x <? hi) then 0 else -1).
Proof.
  intros Hbar H1 H2 Hlo Hhi. unfold bound_check.
  rewrite Hbar, H1, H2, Hlo. cbn [bind]. rewrite Z.gtb_ltb.
  destruct (lo <? x); [|reflexivity]. rewrite Hhi. cbn [bind andb].
  now destruct (x <? hi).
Qed.

Lemma atoi_some t :
  in_int (leading_int t) = true -> atoi (Some t) = Ret (leading_int t).
Proof. intros H. unfold atoi. now rewrite H. Qed.

(** With one piece only there is no upper bound to read: [upper_bound]
    is [NULL], and [atoi] is called on it as soon as the value exceeds
    the lower bound. *)
Lemma bound_check_one_piece x p :
  plain p -> in_int (leading_int p) = true ->
  bound_check x p =
  if leading_int p <? x then Undef NullDeref else Ret (-1).
Proof.
  intros P I. pose proof (plain_no_bar _ P) as B. destruct P as (N & F & _).
  unfold bound_check. rewrite B, (strtok_end "-" p N F).
  change (strtok "" "-") with (@None string, "").
  rewrite (atoi_some p I). cbn [bind]. rewrite Z.gtb_ltb.
  now destruct (leading_int p <? x).
Qed.

(** [strtok] on ["-"] steps over the sign of a printed number. *)
Lemma digit_not_minus c : isdigit c = true -> strchr "-" c = false.
Proof. by_bits c. Qed.

Lemma digits_of_dashless n : 0 <= n -> free_of (digits_of n) "-" = true.
Proof.
  intros Hn. apply all_digits_free; [apply digit_not_minus|].
  now destruct (digits_of_spec n Hn) as (H & _).
Qed.

Lemma itoa_abs n :
  itoa n = (if n <? 0 then "-" else "") ++ digits_of (Z.abs n).
Proof.
  unfold itoa. destruct (n <? 0) eqn:Hn.
  - apply Z.ltb_lt in Hn. now rewrite Z.abs_neq by lia.
  - apply Z.ltb_ge in Hn. now rewrite Z.abs_eq by lia.
Qed.

Lemma strtok_itoa_delim n r :
  strtok (itoa n ++ String "-" r) "-" = (Some (digits_of (Z.abs n)), r).
Proof.
  rewrite itoa_abs. pose proof (Z.abs_nonneg n) as Ha.
  destruct (digits_of_spec _ Ha) as (_ & Hne & _).
  destruct (n <? 0); simpl append; [rewrite strtok_skip by reflexivity|];
    apply strtok_delim; auto using digits_of_dashless.
Qed.

Lemma strtok_itoa_end n :
  strtok (itoa n) "-" = (Some (digits_of (Z.abs n)), "").
Proof.
  rewrite itoa_abs. pose proof (Z.abs_nonneg n) as Ha.
  destruct (digits_of_spec _ Ha) as (_ & Hne & _).
  destruct (n <? 0); simpl append; [rewrite strtok_skip by reflexivity|];
    apply strtok_end; auto using digits_of_dashless.
Qed.

Lemma atoi_digits_of n :
  0 <= n -> in_int n = true -> atoi (Some (digits_of n)) = Ret n.
Proof.
  intros Hn Hi. destruct (digits_of_spec n Hn) as (Hd & Hne & Hv).
  unfold atoi. now rewrite leading_int_digits, Hv, Hi.
Qed.

Lemma itoa_no_bar n : strchr (itoa n) "|" = false.
Proof.
  pose proof (itoa_free n "|" no_numeral_char_bar) as H.
  rewrite free_of_strchr in H. now apply negb_true_iff in H.
Qed.

Lemma bound_check_range x lo hi :
  in_int (Z.abs lo) = true -> in_int (Z.abs hi) = true ->
  bound_check x (range_string lo hi) =
  Ret (if (Z.abs lo <? x) && (x <? Z.abs hi) then 0 else -1).
Proof.
  intros Hlo Hhi. unfold range_string.
  apply (bound_check_two_tokens x _ (digits_of (Z.abs lo)) (itoa hi)
           (digits_of (Z.abs hi)) "").
  - rewrite strchr_append, itoa_no_bar. simpl. apply itoa_no_bar.
  - apply strtok_itoa_delim.
  - apply strtok_itoa_end.
  - apply atoi_digits_of; [apply Z.abs_nonneg | exact Hlo].
  - apply atoi_digits_of; [apply Z.abs_nonneg | exact Hhi].
Qed.

(** ** The shape of the requests *)

Lemma strncmp_at sfx : (strncmp ("AT+REG" ++ sfx) "AT+REG" 6 =? 0) = true.
Proof.
  change 6%nat with (String.length "AT+REG"). rewrite strncmp_prefix.
  apply prefix_append.
Qed.

Lemma strtok_regid sfx :
  id_suffix sfx ->
  strtok ("AT+REG" ++ sfx) "+" = (Some "AT", "REG" ++ sfx) /\
  strtok ("REG" ++ sfx) "+" = (Some ("REG" ++ sfx), "").
Proof.
  intros (_ & Hp). split.
  - apply (strtok_delim "+" "AT" "+" ("REG" ++ sfx)); [discriminate | reflexivity..].
  - apply strtok_end; [discriminate|]. now rewrite free_of_append.
Qed.

(** The answer to a read, a numeral and a new line, never fits the two
    bytes of [reg_result_string]. *)
Lemma read_answer_overruns v : put 2 (itoa v ++ nl) = Undef BufferOverrun.
Proof.
  apply put_overruns. rewrite string_length_app.
  pose proof (itoa_nonempty v) as Hne.
  destruct (itoa v); [congruence | simpl; lia].
Qed.

Lemma atcommand_read sfx g :
  id_suffix sfx ->
  process_atcommand ("AT+REG" ++ sfx) g =
  (reg_result <- print_register (Some ("REG" ++ sfx)) (regs g) ;;
   if negb (reg_result =? -1) then Undef BufferOverrun
   else Ret (g, "INVALID REGISTER" ++ nl, 1)).
Proof.
  intros Hs. unfold process_atcommand. rewrite strncmp_at.
  rewrite (strtok_end "=" ("AT+REG" ++ sfx))
    by (try discriminate; rewrite free_of_append; apply Hs).
  change (strtok "" "=") with (@None string, "").
  cbn [scanned]. destruct (strtok_regid sfx Hs) as (-> & ->).
  destruct (print_register (Some ("REG" ++ sfx)) (regs g)) as [v|f];
    cbn [bind]; [|reflexivity].
  destruct (negb (v =? -1)); [|reflexivity].
  now rewrite read_answer_overruns.
Qed.

Lemma strtok_command sfx rest :
  id_suffix sfx ->
  strtok ("AT+REG" ++ sfx ++ "=" ++ rest) "=" = (Some ("AT+REG" ++ sfx), rest).
Proof.
  intros (He & _). rewrite <- append_assoc.
  apply strtok_delim; [discriminate | | reflexivity].
  now rewrite free_of_append.
Qed.

Lemma atcommand_bounds sfx g :
  id_suffix sfx ->
  process_atcommand ("AT+REG" ++ sfx ++ "=?") g =
  (reg_bounds <- print_bounds (Some ("REG" ++ sfx)) (regs g) ;;
   match reg_bounds with
   | Some b => Ret (g, b, 0)
   | None => Ret (g, "INVALID REGISTER" ++ nl, 1)
   end).
Proof.
  intros Hs. unfold process_atcommand.
  rewrite strncmp_at.
  change (sfx ++ "=?") with (sfx ++ "=" ++ "?").
  rewrite (strtok_command sfx "?" Hs).
  change (strtok "?" "=") with (Some "?", "").
  cbn [scanned]. destruct (strtok_regid sfx Hs) as (-> & ->). reflexivity.
Qed.

Lemma atcommand_write sfx tok g :
  id_suffix sfx -> value_token tok ->
  process_atcommand ("AT+REG" ++ sfx ++ "=" ++ tok) g =
  (requested_value <- atoi (Some tok) ;;
   swap <- replace_value requested_value (Some ("REG" ++ sfx)) (regs g) ;;
   let (value_swap_check, rs) := swap in
   let g' := {| regs := rs; numofregs := numofregs g |} in
   if value_swap_check =? -2 then Ret (g', "INVALID REGISTER" ++ nl, 1)
   else if value_swap_check =? -1 then Ret (g', "InvalidInput" ++ nl, 2)
   else Ret (g', "OK" ++ nl, 0)).
Proof.
  intros Hs (Hne & Hfree & Hq). unfold process_atcommand.
  rewrite strncmp_at.
  rewrite (strtok_command sfx tok Hs), (strtok_end "=" tok Hne Hfree).
  cbn [scanned]. destruct (strtok_regid sfx Hs) as (-> & ->).
  rewrite strcmp_eqb. destruct (String.eqb_spec tok "?"); [contradiction|].
  reflexivity.
Qed.

Lemma serve_atcommand request g :
  String.prefix "insert" request = false ->
  String.prefix "quit" request = false ->
  serve request g =
  (r <- process_atcommand request g ;;
   let '(g', msg, _) := r in Ret (g', msg, Continue)).
Proof.
  intros Hi Hq. unfold serve.
  change 6%nat with (String.length "insert").
  change 4%nat with (String.length "quit").
  now rewrite !strncmp_prefix, Hi, Hq.
Qed.

Lemma process_insertion_fields vtok b g :
  insert_field vtok -> insert_field b ->
  process_insertion ("insert+" ++ vtok ++ "+" ++ b) g =
  (reg_value <- atoi (Some vtok) ;; add_register reg_value b g).
Proof.
  intros (Nv & Fv) (Nb & Fb). unfold process_insertion.
  change ("insert+" ++ vtok ++ "+" ++ b)
    with ("insert" ++ String "+" (vtok ++ String "+" b)).
  rewrite (strtok_delim "+" "insert" "+" (vtok ++ String "+" b))
    by (try discriminate; reflexivity).
  rewrite (strtok_delim "+" vtok "+" b Nv Fv eq_refl).
  rewrite (strtok_end "+" b Nb Fb). reflexivity.
Qed.

Lemma serve_insert request g :
  String.prefix "insert" request = true ->
  serve request g =
  (g' <- process_insertion request g ;;
   Ret (g', "INSERTION COMPLETE" ++ nl, Continue)).
Proof.
  intros Hi. unfold serve. change 6%nat with (String.length "insert").
  now rewrite strncmp_prefix, Hi.
Qed.

(** ** The ids of the list *)

Lemma reg_name_inj i j : reg_name i = reg_name j -> i = j.
Proof.
  unfold reg_name. intros H. inversion H as [H']. apply itoa_inj in H'. lia.
Qed.

Lemma names_succ n : names (S n) = (names n ++ [reg_name (S n)])%list.
Proof. unfold names. now rewrite seq_S, map_app. Qed.


Lemma names_In id n : In id (names n) -> exists i, id = reg_name i /\ (1 <= i <= n)%nat.
Proof.
  unfold names. rewrite in_map_iff. intros (i & <- & Hi).
  apply in_seq in Hi. exists i. split; [reflexivity | lia].
Qed.

Lemma schema_ids rs : map fst (schema rs) = map regid rs.
Proof. unfold schema. rewrite map_map. reflexivity. Qed.

(** The id of the new register fits its arrays as long as its number has
    two digits at most. *)
Lemma add_register_fits value bnds g :
  0 <= numofregs g + 1 <= 99 ->
  add_register value bnds g =
  (rs <- link_last (regs g)
           {| regid := "REG" ++ itoa (numofregs g + 1);
              regvalue := value; bounds := bnds |} ;;
   Ret {| regs := rs; numofregs := numofregs g + 1 |}).
Proof.
  intros Hn. unfold add_register, incr.
  replace (numofregs g <? INT_MAX) with true
    by (symmetry; apply Z.ltb_lt; unfold INT_MAX; lia).
  cbn [bind]. pose proof (itoa_short _ Hn) as Hlen.
  rewrite put_fits by (unfold REGID_MAX; lia). cbn [bind].
  rewrite put_fits by (unfold REGID_MAX; simpl; lia). cbn [bind].
  rewrite put_fits by (unfold REGID_MAX; simpl; lia). reflexivity.
Qed.


Lemma add_register_inv value bnds g g' :
  add_register value bnds g = Ret g' ->
  exists rs,
    link_last (regs g)
      {| regid := "REG" ++ itoa (numofregs g + 1);
         regvalue := value; bounds := bnds |} = Ret rs /\
    g' = {| regs := rs; numofregs := numofregs g + 1 |} /\
    (String.length (itoa (numofregs g + 1)) <= 2)%nat.
Proof.
  unfold add_register, incr. intros H.
  destruct (numofregs g <? INT_MAX); [|discriminate]. cbn [bind] in H.
  destruct (put REGID_MAX (itoa (numofregs g + 1))) as [s1|] eqn:E1;
    [|discriminate].
  apply put_ret in E1 as [-> _]. cbn [bind] in H.
  destruct (put REGID_MAX ("REG" ++ itoa (numofregs g + 1))) as [s2|] eqn:E2;
    [|discriminate].
  apply put_ret in E2 as [-> Hlen]. cbn [bind] in H.
  destruct (put REGID_MAX ("REG" ++ itoa (numofregs g + 1))) as [s3|] eqn:E3;
    [|discriminate].
  apply put_ret in E3 as [-> _]. cbn [bind] in H.
  destruct (link_last (regs g) _) as [rs|] eqn:El; [|discriminate].
  cbn [bind] in H. inversion H. exists rs.
  split; [reflexivity|]. split; [reflexivity|].
  unfold REGID_MAX in Hlen. simpl in Hlen. lia.
Qed.

Lemma add_register_spec value bnds g g' :
  numbered g -> add_register value bnds g = Ret g' ->
  regs g' = (regs g ++ [ {| regid := "REG" ++ itoa (numofregs g + 1);
                           regvalue := value; bounds := bnds |} ])%list /\
  numofregs g' = numofregs g + 1 /\ numbered g'.
Proof.
  intros [Hc Hi Hh] H.
  apply add_register_inv in H as (rs & H & -> & _).
  rewrite link_last_app in H by exact Hh.
  inversion H; subst rs; clear H. cbn [regs numofregs].
  split; [reflexivity|]. split; [reflexivity|]. split; cbn [regs numofregs].
  - rewrite length_app. simpl. lia.
  - rewrite length_app, map_app, Hi. simpl List.length.
    replace (List.length (regs g) + 1)%nat with (S (List.length (regs g))) by lia.
    rewrite names_succ. unfold reg_name. rewrite Hc.
    replace (Z.of_nat (List.length (regs g)) + 1)
      with (Z.of_nat (S (List.length (regs g)))) by lia.
    reflexivity.
  - destruct (regs g); [congruence | discriminate].
Qed.

Lemma add_register_returns value bnds g :
  numbered g -> numofregs g < 99 ->
  exists g', add_register value bnds g = Ret g'.
Proof.
  intros [Hc Hi Hh] Hlt. rewrite add_register_fits by lia.
  rewrite link_last_app by exact Hh. cbn [bind]. eauto.
Qed.

Lemma startup_numbered g : startup = Ret g -> numbered g.
Proof. intros H. inversion H; subst. split; [reflexivity | reflexivity | discriminate]. Qed.

(** ** What a request can change *)

Lemma replace_value_schema v tid rs c rs' :
  replace_value v tid rs = Ret (c, rs') -> schema rs' = schema rs.
Proof.
  revert c rs'; induction rs as [|r rs IH]; simpl; intros c rs' H.
  - now inversion H.
  - destruct tid as [t|]; [|discriminate]. cbn [deref bind] in H.
    destruct (strcmp (regid r) t =? 0).
    + destruct (bound_check v (bounds r)) as [k|]; [|discriminate].
      cbn [bind] in H. destruct (negb (k =? -1)); now inversion H.
    + destruct (replace_value v (Some t) rs) as [[c1 rs1]|]; [|discriminate].
      cbn [bind fst snd] in H. inversion H; subst. simpl.
      now rewrite (IH _ _ eq_refl).
Qed.

Lemma process_atcommand_schema request g g' msg c :
  process_atcommand request g = Ret (g', msg, c) ->
  schema (regs g') = schema (regs g) /\ numofregs g' = numofregs g.
Proof.
  unfold process_atcommand. intros H.
  destruct (strncmp request "AT+REG" 6 =? 0); [|inversion H; auto].
  destruct (strtok request "=") as [mc save].
  destruct (strtok save "=") as [tv save'].
  destruct (strtok (scanned mc save') "+") as [a save1]. destruct (strtok save1 "+") as [tid save2].
  destruct tv as [tv|].
  - destruct (strcmp tv "?" =? 0).
    + destruct (print_bounds tid (regs g)) as [[b|]|]; cbn [bind] in H;
        inversion H; auto.
    + destruct (atoi (Some tv)) as [v|]; [|discriminate]. cbn [bind] in H.
      destruct (replace_value v tid (regs g)) as [[k rs]|] eqn:E; [|discriminate].
      cbn [bind] in H. apply replace_value_schema in E.
      destruct (k =? -2); [|destruct (k =? -1)]; inversion H; subst; auto.
  - destruct (print_register tid (regs g)) as [v|]; [|discriminate].
    cbn [bind] in H. destruct (negb (v =? -1)); [|inversion H; auto].
    rewrite read_answer_overruns in H. discriminate.
Qed.

Lemma process_insertion_adds request g g' :
  process_insertion request g = Ret g' ->
  exists value bnds, add_register value bnds g = Ret g'.
Proof.
  unfold process_insertion. intros H.
  destruct (strtok request "+") as [t0 s0]. destruct (strtok s0 "+") as [t1 s1].
  destruct (atoi t1) as [v|]; [|discriminate]. cbn [bind] in H.
  destruct (strtok s1 "+") as [t2 s2]. destruct t2 as [b|]; [|discriminate].
  cbn [deref bind] in H. eauto.
Qed.

(** One round of the loop either appends a register or leaves the
    schema and the counter as they are. *)
Lemma serve_cases request g g' msg ctl :
  serve request g = Ret (g', msg, ctl) ->
  (String.prefix "insert" request = true /\ msg = "INSERTION COMPLETE" ++ nl /\
   exists value bnds, add_register value bnds g = Ret g') \/
  (String.prefix "insert" request = false /\
   schema (regs g') = schema (regs g) /\ numofregs g' = numofregs g).
Proof.
  unfold serve. change 6%nat with (String.length "insert").
  rewrite strncmp_prefix. intros H.
  destruct (String.prefix "insert" request).
  - left. destruct (process_insertion request g) as [g1|] eqn:E; [|discriminate].
    cbn [bind] in H. inversion H; subst.
    split; [reflexivity|]. split; [reflexivity|].
    now apply process_insertion_adds in E.
  - right. split; [reflexivity|].
    destruct (strncmp request "quit" 4 =? 0); [inversion H; auto|].
    destruct (process_atcommand request g) as [[[g1 m1] c1]|] eqn:E; [|discriminate].
    cbn [bind] in H. inversion H; subst. eapply process_atcommand_schema; eauto.
Qed.

Lemma schema_length rs rs' : schema rs' = schema rs -> List.length rs' = List.length rs.
Proof. unfold schema. intros H. apply (f_equal (@List.length _)) in H. now rewrite !length_map in H. Qed.

Lemma numbered_schema g g' :
  numbered g -> schema (regs g') = schema (regs g) ->
  numofregs g' = numofregs g -> numbered g'.
Proof.
  intros [Hc Hi Hh] Hs Hn. pose proof (schema_length _ _ Hs) as Hl.
  split.
  - now rewrite Hn, Hl.
  - now rewrite <- schema_ids, Hs, schema_ids, Hl.
  - intros E. rewrite E in Hl. destruct (regs g); [congruence | discriminate].
Qed.

Lemma serve_numbered request g g' msg ctl :
  numbered g -> serve request g = Ret (g', msg, ctl) -> numbered g'.
Proof.
  intros Hg H. destruct (serve_cases _ _ _ _ _ H) as [(_ & _ & v & b & Ha)|(_ & Hs & Hn)].
  - now destruct (add_register_spec _ _ _ _ Hg Ha) as (_ & _ & ?).
  - eapply numbered_schema; eauto.
Qed.

(** ** The states the server goes through *)

Lemma evolves_numbered g g' : evolves g g' -> numbered g -> numbered g'.
Proof. induction 1; eauto using serve_numbered. Qed.

Lemma reachable_numbered g : reachable g -> numbered g.
Proof. intros (g0 & H0 & He). eauto using evolves_numbered, startup_numbered. Qed.

Lemma evolves_trans g1 g2 g3 : evolves g1 g2 -> evolves g2 g3 -> evolves g1 g3.
Proof. induction 1; eauto using evolves. Qed.

Lemma reachable_step g request g' msg :
  reachable g -> serve request g = Ret (g', msg, Continue) -> reachable g'.
Proof.
  intros (g0 & H0 & He) H. exists g0. split; [exact H0|].
  eapply evolves_trans; [exact He|]. eauto using evolves.
Qed.

(** The schema only grows. *)
Lemma evolves_schema g g' :
  evolves g g' -> numbered g ->
  exists more, schema (regs g') = (schema (regs g) ++ more)%list.
Proof.
  induction 1 as [g|g request g1 msg g2 H He IH]; intros Hg.
  - exists []. now rewrite app_nil_r.
  - destruct (IH (serve_numbered _ _ _ _ _ Hg H)) as (more & Hm).
    destruct (serve_cases _ _ _ _ _ H) as [(_ & _ & v & b & Ha)|(_ & Hs & Hn)].
    + destruct (add_register_spec _ _ _ _ Hg Ha) as (Hr & _ & _).
      rewrite Hm, Hr. unfold schema at 1. rewrite map_app. fold (schema (regs g)).
      rewrite <- app_assoc. eauto.
    + rewrite Hm, Hs. eauto.
Qed.

(** ** Looking a register up *)

Lemma lookup_schema id rs :
  option_map bounds (lookup id rs) = schema_find id (schema rs).
Proof.
  induction rs as [|r rs IH]; simpl; [reflexivity|].
  now destruct (String.eqb (regid r) id).
Qed.

Lemma schema_find_app id sch more b :
  schema_find id sch = Some b -> schema_find id (sch ++ more) = Some b.
Proof.
  induction sch as [|[i b'] sch IH]; simpl; [discriminate|].
  now destruct (String.eqb i id).
Qed.

Lemma schema_find_fresh id sch b :
  ~ In id (map fst sch) -> schema_find id (sch ++ [(id, b)]) = Some b.
Proof.
  induction sch as [|[i b'] sch IH]; simpl; intros H.
  - now rewrite String.eqb_refl.
  - destruct (String.eqb_spec i id) as [->|Hne]; [tauto|]. apply IH. tauto.
Qed.

Lemma lookup_In id rs : In id (map regid rs) <-> lookup id rs <> None.
Proof.
  induction rs as [|r rs IH]; simpl; [tauto|].
  destruct (String.eqb_spec (regid r) id) as [->|Hne].
  - split; [discriminate | auto].
  - rewrite <- IH. tauto.
Qed.

Lemma fresh_name n : ~ In (reg_name (S n)) (names n).
Proof.
  intros H. apply names_In in H as (i & Hi & Hr). apply reg_name_inj in Hi. lia.
Qed.

(** ** Writes and insertions *)

Lemma value_token_itoa x : value_token (itoa x).
Proof.
  split; [|split]; auto with numerals.
  intros H. pose proof (leading_int_itoa x) as L. rewrite H in L.
  pose proof (itoa_free x "?" (no_numeral_char_one "?" eq_refl ltac:(discriminate))) as F.
  rewrite H in F. discriminate.
Qed.

Lemma id_suffix_itoa n : id_suffix (itoa n).
Proof. split; auto with numerals. Qed.

(** A write, by the token after the ['=']: the register is looked up,
    the value the token reads as is checked against its bounds, and
    stored when the check does not return [-1]. *)
Lemma write_token sfx tok g :
  id_suffix sfx -> value_token tok -> in_int (leading_int tok) = true ->
  process_atcommand ("AT+REG" ++ sfx ++ "=" ++ tok) g =
  match lookup ("REG" ++ sfx) (regs g) with
  | None => Ret (g, "INVALID REGISTER" ++ nl, 1)
  | Some r =>
      c <- bound_check (leading_int tok) (bounds r) ;;
      if negb (c =? -1)
      then Ret (stored ("REG" ++ sfx) (leading_int tok) g, "OK" ++ nl, 0)
      else Ret (g, "InvalidInput" ++ nl, 2)
  end.
Proof.
  intros Hs Ht Hi. rewrite (atcommand_write sfx tok g Hs Ht).
  rewrite (atoi_some tok Hi). cbn [bind]. rewrite replace_value_lookup.
  destruct g as [rs n]. cbn [regs numofregs].
  destruct (lookup ("REG" ++ sfx) rs) as [r|]; [|reflexivity].
  destruct (bound_check (leading_int tok) (bounds r)) as [c|f]; [|reflexivity].
  cbn [bind]. now destruct (negb (c =? -1)).
Qed.

Lemma write_outcome sfx x g :
  id_suffix sfx -> in_int x = true ->
  process_atcommand (write_request sfx x) g =
  match lookup ("REG" ++ sfx) (regs g) with
  | None => Ret (g, "INVALID REGISTER" ++ nl, 1)
  | Some r =>
      c <- bound_check x (bounds r) ;;
      if negb (c =? -1)
      then Ret (stored ("REG" ++ sfx) x g, "OK" ++ nl, 0)
      else Ret (g, "InvalidInput" ++ nl, 2)
  end.
Proof.
  intros Hs Hx. unfold write_request.
  rewrite (write_token sfx (itoa x) g Hs (value_token_itoa x));
    rewrite leading_int_itoa; [reflexivity | exact Hx].
Qed.

Lemma lookup_store_value id v rs r :
  lookup id rs = Some r ->
  lookup id (store_value id v rs) =
  Some {| regid := regid r; regvalue := v; bounds := bounds r |}.
Proof.
  induction rs as [|r0 rs IH]; simpl; [discriminate|].
  destruct (String.eqb (regid r0) id) eqn:E; simpl; rewrite E.
  - now intros [= ->].
  - exact IH.
Qed.

Lemma tokens_strtok s d t ts :
  tokens s d = t :: ts ->
  exists save, strtok s d = (Some t, save) /\ tokens save d = ts.
Proof.
  intros H. pose proof (strtok_tokens s d) as Hs.
  destruct (strtok s d) as [[tok|] save]; rewrite H in Hs; [|discriminate].
  inversion Hs; subst. eauto.
Qed.

Lemma in_int_abs z : - INT_MAX <= z <= INT_MAX -> in_int (Z.abs z) = true /\ in_int z = true.
Proof.
  unfold in_int, INT_MAX, INT_MIN. intros H.
  split; apply andb_true_intro; split; apply Z.leb_le; lia.
Qed.

Lemma head_is_digit_false s : head_is_digit s = false -> digits_value 0 s = 0.
Proof. destruct s as [|c s]; simpl; [reflexivity|]. now intros ->. Qed.

Lemma starts_number_false s : starts_number s = false -> leading_int s = 0.
Proof.
  unfold starts_number, leading_int. destruct (skip_space s) as [|c r]; [reflexivity|].
  destruct c as [[] [] [] [] [] [] [] []];
    intros H; rewrite (head_is_digit_false _ H); reflexivity.
Qed.

Lemma insert_field_itoa v : insert_field (itoa v).
Proof. split; auto with numerals. Qed.

Lemma prefix_insert_request v b : String.prefix "insert" (insert_request v b) = true.
Proof. reflexivity. Qed.

Lemma serve_insert_request g v b :
  numbered g -> numofregs g < 99 -> in_int v = true -> insert_field b ->
  serve (insert_request v b) g =
  Ret ({| regs := regs g ++ [appended (numofregs g) v b];
          numofregs := numofregs g + 1 |},
       "INSERTION COMPLETE" ++ nl, Continue).
Proof.
  intros Hg Hlt Hv Hb. rewrite serve_insert by apply prefix_insert_request.
  unfold insert_request.
  rewrite (process_insertion_fields _ _ g (insert_field_itoa v) Hb).
  rewrite (atoi_itoa v Hv). cbn [bind].
  destruct (add_register_returns v b g Hg Hlt) as (g' & Ha). rewrite Ha.
  destruct (add_register_spec _ _ _ _ Hg Ha) as (Hr & Hn & _).
  cbn [bind]. destruct g' as [rs n]. cbn [regs numofregs] in Hr, Hn.
  now subst.
Qed.

Lemma strip_prefix_none p q s :
  String.prefix p s = false -> strip_prefix (p ++ q) s = None.
Proof.
  revert s; induction p as [|a p IH]; intros s; simpl.
  - destruct s; discriminate.
  - destruct s as [|b s]; [reflexivity|]. simpl.
    destruct (ascii_dec a b) as [->|Hab].
    + rewrite Ascii.eqb_refl. apply IH.
    + intros _. apply Ascii.eqb_neq in Hab. now rewrite Hab.
Qed.

Lemma serve_insert_inv request g g' msg ctl :
  String.prefix "insert" request = true ->
  serve request g = Ret (g', msg, ctl) ->
  ctl = Continue /\ msg = "INSERTION COMPLETE" ++ nl /\
  exists value bnds, add_register value bnds g = Ret g'.
Proof.
  intros Hp H. rewrite serve_insert in H by exact Hp.
  destruct (process_insertion request g) as [g1|] eqn:E; [|discriminate].
  cbn [bind] in H. inversion H; subst.
  repeat split. now apply process_insertion_adds in E.
Qed.

Lemma appended_found g v b :
  numbered g ->
  schema_find ("REG" ++ itoa (numofregs g + 1))
    (schema (regs g ++ [appended (numofregs g) v b])) = Some b.
Proof.
  intros [Hc Hi Hh]. unfold schema. rewrite map_app. simpl map.
  apply schema_find_fresh. fold (schema (regs g)). rewrite schema_ids, Hi, Hc.
  replace (Z.of_nat (List.length (regs g)) + 1)
    with (Z.of_nat (S (List.length (regs g)))) by lia.
  apply fresh_name.
Qed.

(** A read of a register that holds [-1] is answered as if the register
    were not on the list: [print_register] returns the value, and [-1] is
    its answer for a register that is not found. *)
Lemma read_of_minus_one sfx g r :
  id_suffix sfx -> lookup ("REG" ++ sfx) (regs g) = Some r -> regvalue r = -1 ->
  process_atcommand ("AT+REG" ++ sfx) g = Ret (g, "INVALID REGISTER" ++ nl, 1).
Proof.
  intros Hs Hl Hv. rewrite (atcommand_read sfx g Hs), print_register_lookup, Hl, Hv.
  reflexivity.
Qed.

End ServerFacts.

Import CLib Server Model Spec CFacts ServerFacts.

(* ================================================================== *)
(** * The properties of the specification *)
(* ================================================================== *)

(** ** C1: bounds strings of neither shape *)

(** C1, as stated, fails: the bounds string [x-10] has neither the
    discrete shape nor the continuous one, and the check does not reject
    every value: it reads the string as [0-10] and accepts [5]. *)
Lemma malformed_bounds_accepted :
  discrete_shape "x-10" = false /\ continuous_shape "x-10" = false /\
  bound_check 5 "x-10" = Ret 0.
Proof. repeat split. Qed.

(** The other way C1 fails is not a reading of the string but a missing
    test ([bound_check_one_piece]): the bounds string [abc], of neither
    shape, has one piece only, and the check of a positive value is
    undefined. *)
Lemma one_piece_bounds_null :
  bound_check 5 "abc" = Undef NullDeref /\ bound_check 0 "abc" = Ret (-1).
Proof.
  assert (P : plain "abc") by (repeat split; discriminate).
  split; [exact (bound_check_one_piece 5 "abc" P eq_refl)
         | exact (bound_check_one_piece 0 "abc" P eq_refl)].
Qed.

(** C1 (amended): for every bounds string without ['|'] that holds two
    non-empty pieces separated by ['-'] at least, the first two reading
    as [int]s [lo] and [hi], the check evaluates to [0] or [-1]: it
    accepts [v] exactly when [lo < v < hi], and so it rejects every value
    when [hi <= lo + 1], as it does when neither piece begins with a
    number. *)
Theorem two_piece_bounds_total (b t1 t2 : string) (rest : list string) :
  discrete_shape b = false ->
  tokens b "-" = t1 :: t2 :: rest ->
  in_int (leading_int t1) = true -> in_int (leading_int t2) = true ->
  (forall v, bound_check v b =
             Ret (if (leading_int t1 <? v) && (v <? leading_int t2) then 0 else -1)) /\
  (leading_int t2 <= leading_int t1 + 1 -> forall v, bound_check v b = Ret (-1)) /\
  (starts_number t1 = false -> starts_number t2 = false ->
   forall v, bound_check v b = Ret (-1)).
Proof.
  intros Hbar Ht I1 I2.
  destruct (tokens_strtok _ _ _ _ Ht) as (save & H1 & Ht').
  destruct (tokens_strtok _ _ _ _ Ht') as (save' & H2 & _).
  assert (Hall : forall v, bound_check v b =
             Ret (if (leading_int t1 <? v) && (v <? leading_int t2) then 0 else -1)).
  { intros v. eapply bound_check_two_tokens; eauto using atoi_some. }
  split; [exact Hall|]. split.
  - intros Hle v. rewrite Hall.
    destruct (leading_int t1 <? v) eqn:E1; [|reflexivity].
    destruct (v <? leading_int t2) eqn:E2; [|reflexivity].
    apply Z.ltb_lt in E1, E2. lia.
  - intros N1 N2 v. rewrite Hall.
    rewrite (starts_number_false _ N1), (starts_number_false _ N2).
    destruct (0 <? v) eqn:E1; [|reflexivity].
    destruct (v <? 0) eqn:E2; [|reflexivity].
    apply Z.ltb_lt in E1, E2. lia.
Qed.

Lemma two_piece_bounds_total_witness :
  bound_check 7 "low-high" = Ret (-1) /\ bound_check 7 "5-x" = Ret (-1).
Proof.
  split.
  - apply (proj2 (proj2 (two_piece_bounds_total "low-high" "low" "high" []
                           eq_refl eq_refl eq_refl eq_refl))); reflexivity.
  - apply (proj1 (proj2 (two_piece_bounds_total "5-x" "5" "x" []
                           eq_refl eq_refl eq_refl eq_refl))).
    vm_compute. discriminate.
Defined.

(** ** C2: discrete bounds *)

(** C2, as stated, fails: in [abc|5] no piece is the integer [0], yet a
    write of [0] succeeds, [atoi] reading [abc] as [0]. *)
Lemma unparsable_piece_matches_zero :
  ~ In (Some 0) (map literal_value (pieces "abc|5" "|")) /\
  bound_check 0 "abc|5" = Ret 0 /\
  exists g, main ["insert+7+abc|5"; "AT+REG3=0"]
            = Ret (g, ["INSERTION COMPLETE" ++ nl; "OK" ++ nl]).
Proof.
  split; [|split; [reflexivity | eexists; reflexivity]].
  simpl. intros [H|[H|[]]]; discriminate.
Qed.

(** C2 (amended): for every register whose bounds string contains ['|']
    and whose non-empty pieces read as [int]s, a write of [x] is answered
    [OK], and [x] is stored, exactly when [x] is the integer one of the
    non-empty pieces begins with ([0] for a piece that begins with no
    number); otherwise it is answered [InvalidInput] and nothing changes.
    Empty pieces match nothing. *)
Theorem discrete_write (g : globals) (sfx : string) (r : registers_t) (x : Z) :
  id_suffix sfx -> in_int x = true ->
  lookup ("REG" ++ sfx) (regs g) = Some r ->
  discrete_shape (bounds r) = true ->
  int_pieces (tokens (bounds r) "|") ->
  (In x (map leading_int (tokens (bounds r) "|")) ->
   process_atcommand (write_request sfx x) g
   = Ret (stored ("REG" ++ sfx) x g, "OK" ++ nl, 0)) /\
  (~ In x (map leading_int (tokens (bounds r) "|")) ->
   process_atcommand (write_request sfx x) g
   = Ret (g, "InvalidInput" ++ nl, 2)) /\
  ~ In "" (tokens (bounds r) "|").
Proof.
  intros Hs Hx Hl Hbar Hint.
  rewrite (write_outcome sfx x g Hs Hx), Hl.
  rewrite (bound_check_distinct x (bounds r) Hbar Hint). cbn [bind].
  assert (Hex : existsb (reads_as x) (tokens (bounds r) "|") = true <->
                In x (map leading_int (tokens (bounds r) "|"))).
  { rewrite existsb_exists, in_map_iff. unfold reads_as.
    split; intros (t & H1 & H2); exists t.
    - apply Z.eqb_eq in H2. tauto.
    - split; [tauto|]. apply Z.eqb_eq. tauto. }
  split; [|split].
  - intros Hin. apply Hex in Hin. now rewrite Hin.
  - intros Hnin. destruct (existsb (reads_as x) (tokens (bounds r) "|")); [|reflexivity].
    exfalso. apply Hnin, Hex. reflexivity.
  - unfold tokens. rewrite filter_In. intros (_ & H). discriminate.
Qed.

Lemma discrete_write_witness :
  process_atcommand (write_request "2" 2) two_registers
  = Ret (stored "REG2" 2 two_registers, "OK" ++ nl, 0).
Proof.
  refine (proj1 (discrete_write two_registers "2"
            {| regid := "REG2"; regvalue := 3; bounds := "1|2|3" |} 2
            _ _ _ _ _) _).
  - split; reflexivity.
  - reflexivity.
  - reflexivity.
  - reflexivity.
  - repeat constructor.
  - simpl. tauto.
Defined.

(** ** C3: continuous bounds *)

(** C3, as stated, fails for a negative lower bound: with the bounds
    [-5-10] the write of [0] is rejected although [-5 < 0 < 10], the
    leading ['-'] being taken for a separator. *)
Lemma negative_lower_bound_rejects_interior :
  range_string (-5) 10 = "-5-10" /\ -5 < 0 < 10 /\
  bound_check 0 "-5-10" = Ret (-1) /\
  exists g, main ["insert+1+-5-10"; "AT+REG3=0"]
            = Ret (g, ["INSERTION COMPLETE" ++ nl; "InvalidInput" ++ nl]).
Proof.
  split; [reflexivity|]. split; [lia|]. split; [reflexivity|].
  eexists; reflexivity.
Qed.

(** C3 (amended): for every register with continuous bounds [lo-hi],
    [lo] and [hi] being [int]s other than [INT_MIN], the writes of [lo]
    and of [hi] are both answered [InvalidInput] and change nothing; and
    when [lo] is not negative, the write of any [v] with [lo < v < hi] is
    answered [OK] and stores [v]. *)
Theorem continuous_write (g : globals) (sfx : string) (r : registers_t) (lo hi : Z) :
  id_suffix sfx ->
  lookup ("REG" ++ sfx) (regs g) = Some r ->
  bounds r = range_string lo hi ->
  - INT_MAX <= lo <= INT_MAX -> - INT_MAX <= hi <= INT_MAX ->
  process_atcommand (write_request sfx lo) g = Ret (g, "InvalidInput" ++ nl, 2) /\
  process_atcommand (write_request sfx hi) g = Ret (g, "InvalidInput" ++ nl, 2) /\
  (0 <= lo -> forall v, lo < v < hi ->
   process_atcommand (write_request sfx v) g
   = Ret (stored ("REG" ++ sfx) v g, "OK" ++ nl, 0)).
Proof.
  intros Hs Hl Hb Hlo Hhi.
  destruct (in_int_abs lo Hlo) as (Alo & Ilo).
  destruct (in_int_abs hi Hhi) as (Ahi & Ihi).
  assert (Hw : forall v, in_int v = true ->
    process_atcommand (write_request sfx v) g =
    if (Z.abs lo <? v) && (v <? Z.abs hi)
    then Ret (stored ("REG" ++ sfx) v g, "OK" ++ nl, 0)
    else Ret (g, "InvalidInput" ++ nl, 2)).
  { intros v Hv. rewrite (write_outcome sfx v g Hs Hv), Hl, Hb.
    rewrite (bound_check_range v lo hi Alo Ahi). cbn [bind].
    now destruct ((Z.abs lo <? v) && (v <? Z.abs hi)). }
  split; [|split].
  - rewrite (Hw lo Ilo). replace (Z.abs lo <? lo) with false; [reflexivity|].
    symmetry. apply Z.ltb_ge. lia.
  - rewrite (Hw hi Ihi).
    destruct (Z.abs lo <? hi) eqn:E1; [|reflexivity].
    destruct (hi <? Z.abs hi) eqn:E2; [|reflexivity].
    apply Z.ltb_lt in E1, E2. lia.
  - intros Hpos v Hv.
    assert (Iv : in_int v = true).
    { unfold in_int, INT_MAX, INT_MIN in *.
      apply andb_true_intro; split; apply Z.leb_le; lia. }
    rewrite (Hw v Iv).
    replace (Z.abs lo <? v) with true by (symmetry; apply Z.ltb_lt; lia).
    replace (v <? Z.abs hi) with true by (symmetry; apply Z.ltb_lt; lia).
    reflexivity.
Qed.

Lemma continuous_write_witness :
  process_atcommand (write_request "1" 0) two_registers
    = Ret (two_registers, "InvalidInput" ++ nl, 2) /\
  process_atcommand (write_request "1" 16535) two_registers
    = Ret (two_registers, "InvalidInput" ++ nl, 2) /\
  process_atcommand (write_request "1" 16534) two_registers
    = Ret (stored "REG1" 16534 two_registers, "OK" ++ nl, 0).
Proof.
  assert (H := continuous_write two_registers "1"
            {| regid := "REG1"; regvalue := 0; bounds := "0-16535" |} 0 16535).
  destruct H as (H1 & H2 & H3); try reflexivity.
  - split; reflexivity.
  - unfold INT_MAX; lia.
  - unfold INT_MAX; lia.
  - split; [exact H1|]. split; [exact H2|]. apply H3; lia.
Defined.

(** ** C4: the three outcomes of a write *)

(** C4: a write looks the register up. When no register has the id,
    [replace_value] returns [-2], the answer is [INVALID REGISTER] and
    nothing changes; when the value fails the bounds check of the
    register, it returns [-1], the answer is [InvalidInput] and nothing
    changes; when the value passes, it returns [0], the answer is [OK] and
    the register holds the value written. *)
Theorem write_dispatch (g : globals) (sfx : string) (v : Z) :
  id_suffix sfx -> in_int v = true ->
  (~ In ("REG" ++ sfx) (map regid (regs g)) ->
   replace_value v (Some ("REG" ++ sfx)) (regs g) = Ret (-2, regs g) /\
   process_atcommand (write_request sfx v) g
   = Ret (g, "INVALID REGISTER" ++ nl, 1)) /\
  (forall r, lookup ("REG" ++ sfx) (regs g) = Some r ->
   bound_check v (bounds r) = Ret (-1) ->
   replace_value v (Some ("REG" ++ sfx)) (regs g) = Ret (-1, regs g) /\
   process_atcommand (write_request sfx v) g
   = Ret (g, "InvalidInput" ++ nl, 2)) /\
  (forall r, lookup ("REG" ++ sfx) (regs g) = Some r ->
   bound_check v (bounds r) = Ret 0 ->
   replace_value v (Some ("REG" ++ sfx)) (regs g)
   = Ret (0, store_value ("REG" ++ sfx) v (regs g)) /\
   process_atcommand (write_request sfx v) g
   = Ret (stored ("REG" ++ sfx) v g, "OK" ++ nl, 0) /\
   print_register (Some ("REG" ++ sfx)) (regs (stored ("REG" ++ sfx) v g))
   = Ret v).
Proof.
  intros Hs Hv.
  rewrite (write_outcome sfx v g Hs Hv), replace_value_lookup.
  split; [|split].
  - intros Hnin. rewrite lookup_In in Hnin.
    destruct (lookup ("REG" ++ sfx) (regs g)); [exfalso; apply Hnin; discriminate|].
    split; reflexivity.
  - intros r Hl Hb. rewrite Hl, Hb. split; reflexivity.
  - intros r Hl Hb. rewrite Hl, Hb. repeat split.
    rewrite print_register_lookup. cbn [stored regs].
    now rewrite (lookup_store_value _ v _ r Hl).
Qed.

Lemma write_dispatch_witness :
  process_atcommand (write_request "9" 2) two_registers
    = Ret (two_registers, "INVALID REGISTER" ++ nl, 1) /\
  process_atcommand (write_request "2" 4) two_registers
    = Ret (two_registers, "InvalidInput" ++ nl, 2) /\
  process_atcommand (write_request "2" 2) two_registers
    = Ret (stored "REG2" 2 two_registers, "OK" ++ nl, 0) /\
  print_register (Some "REG2") (regs (stored "REG2" 2 two_registers)) = Ret 2.
Proof.
  assert (S9 : id_suffix "9") by (split; reflexivity).
  assert (S2 : id_suffix "2") by (split; reflexivity).
  split; [|split].
  - apply (write_dispatch two_registers "9" 2 S9 eq_refl).
    simpl. intros [H|[H|[]]]; discriminate.
  - apply (proj1 (proj2 (write_dispatch two_registers "2" 4 S2 eq_refl))
             {| regid := "REG2"; regvalue := 3; bounds := "1|2|3" |});
      reflexivity.
  - apply (proj2 (proj2 (write_dispatch two_registers "2" 2 S2 eq_refl))
             {| regid := "REG2"; regvalue := 3; bounds := "1|2|3" |});
      reflexivity.
Defined.

(** ** C5: the ids *)



(** ** C6: insertion does not always succeed *)

(** C6: ninety-seven insertions after the start are answered
    [INSERTION COMPLETE] and bring the count to ninety-nine; the
    ninety-eighth is not answered: the id [REG100] takes seven bytes with
    its [NUL], and [strcat] writes it to the six bytes of [tempid]. *)
Theorem hundredth_id_overruns :
  (exists g,
     main (repeat (insert_request 0 "0-9") 97)
     = Ret (g, repeat ("INSERTION COMPLETE" ++ nl) 97) /\
     numofregs g = 99) /\
  main (repeat (insert_request 0 "0-9") 98) = Undef BufferOverrun.
Proof.
  split.
  - eexists. split; [vm_compute; reflexivity | reflexivity].
  - vm_compute. reflexivity.
Qed.

(** ** C7: requests outside the grammar *)

(** C7, as stated, fails: [AT+REGfoo] and [quitx] match no production of
    the grammar; the first is dispatched as a read of the register
    [REGfoo], the second is taken for [quit] and ends the loop. *)
Lemma ungrammatical_requests_dispatched :
  in_grammar "AT+REGfoo" = false /\
  serve "AT+REGfoo" two_registers
  = Ret (two_registers, "INVALID REGISTER" ++ nl, Continue) /\
  in_grammar "quitx" = false /\
  serve "quitx" two_registers = Ret (two_registers, "TERMINATING" ++ nl, Break).
Proof. repeat split. Qed.

(** C7 (amended): every request that begins with none of [insert],
    [quit] and [AT+REG] (no such request matches a production of the
    grammar) is answered [INVALID AT-COMMAND]; the globals are unchanged
    and the loop goes on. *)
Theorem unrecognized_request (request : string) (g : globals) :
  String.prefix "insert" request = false ->
  String.prefix "quit" request = false ->
  String.prefix "AT+REG" request = false ->
  in_grammar request = false /\
  process_atcommand request g = Ret (g, "INVALID AT-COMMAND" ++ nl, 3) /\
  serve request g = Ret (g, "INVALID AT-COMMAND" ++ nl, Continue).
Proof.
  intros Hi Hq Ha.
  assert (Hp : process_atcommand request g = Ret (g, "INVALID AT-COMMAND" ++ nl, 3)).
  { unfold process_atcommand. change 6%nat with (String.length "AT+REG").
    now rewrite strncmp_prefix, Ha. }
  split; [|split; [exact Hp|]].
  - unfold in_grammar.
    change (strip_prefix "insert+" request)
      with (strip_prefix ("insert" ++ "+") request).
    change (strip_prefix "AT+REG" request)
      with (strip_prefix ("AT+REG" ++ "") request).
    rewrite (strip_prefix_none "insert" "+" request Hi).
    rewrite (strip_prefix_none "AT+REG" "" request Ha).
    destruct (String.eqb_spec request "quit") as [->|]; [discriminate | reflexivity].
  - rewrite (serve_atcommand request g Hi Hq), Hp. reflexivity.
Qed.

Lemma unrecognized_request_witness :
  serve "FOOBAR" two_registers
  = Ret (two_registers, "INVALID AT-COMMAND" ++ nl, Continue).
Proof.
  apply (unrecognized_request "FOOBAR" two_registers); reflexivity.
Defined.

(** ** C8: the token of a write *)




(** ** C9: the bounds string comes back *)

(** C9: in every state the server reaches, once [add_register] has
    appended a register with the bounds string [b] (the counter being [n]
    before), every later request for the bounds of [REG<n+1>], whatever
    the server served in between, finds [b] and is answered with [b]
    exactly. *)
Theorem bounds_round_trip (g g1 g2 : globals) (v : Z) (b : string) :
  reachable g -> add_register v b g = Ret g1 -> evolves g1 g2 ->
  print_bounds (Some ("REG" ++ itoa (numofregs g + 1))) (regs g2)
  = Ret (Some b) /\
  serve ("AT+REG" ++ itoa (numofregs g + 1) ++ "=?") g2
  = Ret (g2, b, Continue).
Proof.
  intros Hr Ha He. pose proof (reachable_numbered g Hr) as Hg.
  destruct (add_register_spec _ _ _ _ Hg Ha) as (Hregs & _ & Hg1).
  destruct (evolves_schema _ _ He Hg1) as (more & Hm). rewrite Hregs in Hm.
  assert (Hpb : print_bounds (Some ("REG" ++ itoa (numofregs g + 1))) (regs g2)
                = Ret (Some b)).
  { pose proof (appended_found g v b Hg) as Hf. unfold appended in Hf.
    rewrite print_bounds_lookup, lookup_schema, Hm.
    now rewrite (schema_find_app _ _ more b Hf). }
  split; [exact Hpb|].
  rewrite serve_atcommand by reflexivity.
  rewrite (atcommand_bounds _ g2 (id_suffix_itoa _)), Hpb. reflexivity.
Qed.

(** The bounds [0-10] of [REG3] come back after a write to it and a
    second insertion. *)
Lemma bounds_round_trip_witness :
  exists g2,
    main_loop ["insert+5+0-10"; "AT+REG3=7"; "insert+1+1|2"] two_registers
    = Ret (g2, ["INSERTION COMPLETE" ++ nl; "OK" ++ nl;
                "INSERTION COMPLETE" ++ nl]) /\
    serve "AT+REG3=?" g2 = Ret (g2, "0-10", Continue).
Proof.
  eexists. split; [reflexivity|].
  refine (proj2 (bounds_round_trip two_registers _ _ 5 "0-10" _ eq_refl _)).
  - exists two_registers; split; [reflexivity | constructor].
  - eapply (evolves_step _ "AT+REG3=7"); [reflexivity|].
    eapply (evolves_step _ "insert+1+1|2"); [reflexivity|]. apply evolves_refl.
Defined.

(** ** C10: the register that holds -1 *)

(** C10: after [insert+-1+<bounds>] on the two registers of the start,
    the state reached holds the register [REG3] with the value [-1], and
    the read [AT+REG3] is answered [INVALID REGISTER]. *)
Theorem sentinel_hides_register (b : string) :
  insert_field b ->
  exists g0 g,
    startup = Ret g0 /\
    serve (insert_request (-1) b) g0
    = Ret (g, "INSERTION COMPLETE" ++ nl, Continue) /\
    reachable g /\
    lookup "REG3" (regs g)
    = Some {| regid := "REG3"; regvalue := -1; bounds := b |} /\
    print_register (Some "REG3") (regs g) = Ret (-1) /\
    serve "AT+REG3" g = Ret (g, "INVALID REGISTER" ++ nl, Continue).
Proof.
  intros Hb. exists two_registers. eexists.
  assert (R : reachable two_registers)
    by (exists two_registers; split; [reflexivity | constructor]).
  assert (Hs : serve (insert_request (-1) b) two_registers
               = Ret ({| regs := regs two_registers ++ [appended 2 (-1) b];
                         numofregs := 3 |},
                      "INSERTION COMPLETE" ++ nl, Continue)).
  { apply (serve_insert_request two_registers (-1) b);
      [apply reachable_numbered, R | reflexivity | reflexivity | exact Hb]. }
  split; [reflexivity|]. split; [exact Hs|].
  split; [eapply reachable_step; [exact R | exact Hs]|].
  split; [reflexivity|]. split; [reflexivity|].
  rewrite serve_atcommand by reflexivity.
  rewrite (read_of_minus_one "3" _ (appended 2 (-1) b));
    [reflexivity | split; reflexivity | reflexivity | reflexivity].
Qed.

Lemma sentinel_hides_register_witness :
  exists g,
    main ["insert+-1+0-10"; "AT+REG3"]
    = Ret (g, ["INSERTION COMPLETE" ++ nl; "INVALID REGISTER" ++ nl]) /\
    lookup "REG3" (regs g)
    = Some {| regid := "REG3"; regvalue := -1; bounds := "0-10" |}.
Proof.
  destruct (sentinel_hides_register "0-10") as (g0 & g & H0 & H1 & _ & H3 & _ & H5).
  - split; [discriminate | reflexivity].
  - exists g. split; [|exact H3].
    unfold main. rewrite H0. cbn [bind main_loop].
    change "insert+-1+0-10" with (insert_request (-1) "0-10").
    rewrite H1. cbn [bind]. rewrite H5. reflexivity.
Defined.

(* ================================================================== *)
(** * Facts about requests and the store *)
(* ================================================================== *)

Module RequestFacts.

(** ** Tokens and [strtok] *)

Lemma tokens_nil_strtok s d : tokens s d = [] -> strtok s d = (None, "").
Proof.
  intros H. pose proof (strtok_tokens s d) as Hs. unfold strtok in *.
  destruct (skip_delims s d) as [|c s1]; [reflexivity|].
  destruct (cut_token (String c s1) d). rewrite H in Hs. discriminate.
Qed.

(** A token holds no delimiter, and cutting a string keeps it free of
    the characters it was free of. *)
Lemma cut_token_free s d tok save :
  cut_token s d = (tok, save) -> free_of tok d = true.
Proof.
  revert tok save; induction s as [|a s IH]; simpl; intros tok save H.
  - now inversion H.
  - destruct (strchr d a) eqn:Ha.
    + now inversion H.
    + destruct (cut_token s d) as [t r] eqn:E. inversion H; subst. simpl.
      rewrite Ha. simpl. eapply IH; reflexivity.
Qed.

Lemma cut_token_keeps s d d' tok save :
  free_of s d' = true -> cut_token s d = (tok, save) -> free_of tok d' = true.
Proof.
  revert tok save; induction s as [|a s IH]; simpl; intros tok save F H.
  - now inversion H.
  - apply andb_prop in F as [Fa Fs]. destruct (strchr d a).
    + now inversion H.
    + destruct (cut_token s d) as [t r] eqn:E. inversion H; subst. simpl.
      rewrite Fa. simpl. eapply IH; eauto.
Qed.

Lemma skip_delims_head s d c s' :
  skip_delims s d = String c s' -> strchr d c = false.
Proof.
  induction s as [|a s IH]; simpl; [discriminate|].
  destruct (strchr d a) eqn:Ha; [exact IH|].
  intros H; inversion H; subst. exact Ha.
Qed.

Lemma strtok_token s d tok save :
  strtok s d = (Some tok, save) -> tok <> "" /\ free_of tok d = true.
Proof.
  unfold strtok. destruct (skip_delims s d) as [|c s1] eqn:E; [discriminate|].
  pose proof (skip_delims_head _ _ _ _ E) as Hc.
  destruct (cut_token (String c s1) d) as [t r] eqn:C. intros H; inversion H; subst.
  split; [|eapply cut_token_free; eassumption].
  simpl in C. rewrite Hc in C. destruct (cut_token s1 d). inversion C; subst; discriminate.
Qed.

Lemma tokens_head s d t ts :
  tokens s d = t :: ts -> t <> "" /\ free_of t d = true.
Proof.
  intros H. destruct (tokens_strtok _ _ _ _ H) as (save & Hs & _).
  eapply strtok_token; eauto.
Qed.

Lemma prefix_split p s :
  String.prefix p s = true -> exists r, s = p ++ r.
Proof.
  revert s; induction p as [|a p IH]; intros s; simpl.
  - intros _. now exists s.
  - destruct s as [|b s]; simpl; [discriminate|].
    destruct (ascii_dec a b) as [->|]; [|discriminate].
    intros H. destruct (IH _ H) as (r & ->). now exists r.
Qed.

(** ** The fields of an insertion *)

Lemma process_insertion_tokens request g t1 t2 t3 rest :
  tokens request "+" = t1 :: t2 :: t3 :: rest ->
  in_int (leading_int t2) = true ->
  process_insertion request g = add_register (leading_int t2) t3 g.
Proof.
  intros Ht Hi.
  destruct (tokens_strtok _ _ _ _ Ht) as (s1 & H1 & Ht1).
  destruct (tokens_strtok _ _ _ _ Ht1) as (s2 & H2 & Ht2).
  destruct (tokens_strtok _ _ _ _ Ht2) as (s3 & H3 & _).
  unfold process_insertion. rewrite H1, H2, (atoi_some t2 Hi). cbn [bind].
  rewrite H3. reflexivity.
Qed.

Lemma process_insertion_short request g :
  (List.length (tokens request "+") < 3)%nat ->
  exists f, process_insertion request g = Undef f.
Proof.
  intros Hlen. unfold process_insertion.
  destruct (tokens request "+") as [|t1 ts] eqn:Ht.
  - rewrite (tokens_nil_strtok _ _ Ht). simpl. eauto.
  - destruct (tokens_strtok _ _ _ _ Ht) as (s1 & -> & Ht1).
    destruct ts as [|t2 ts].
    + rewrite (tokens_nil_strtok _ _ Ht1). simpl. eauto.
    + destruct (tokens_strtok _ _ _ _ Ht1) as (s2 & -> & Ht2).
      destruct ts as [|t3 ts]; [|simpl in Hlen; lia].
      rewrite (tokens_nil_strtok _ _ Ht2).
      destruct (atoi (Some t2)); simpl; eauto.
Qed.

(** ** The fields of an AT command *)

(** What [process_atcommand] does once the request is cut in fields:
    [target_value] is the second ['=']-field and [target_regid] the
    second ['+']-field of the first. *)
Lemma process_atcommand_fields request g cmd save tv save' a save1 tid save2 :
  String.prefix "AT+REG" request = true ->
  strtok request "=" = (Some cmd, save) -> strtok save "=" = (tv, save') ->
  strtok cmd "+" = (a, save1) -> strtok save1 "+" = (tid, save2) ->
  process_atcommand request g =
  match tv with
  | None =>
      reg_result <- print_register tid (regs g) ;;
      if negb (reg_result =? -1) then Undef BufferOverrun
      else Ret (g, "INVALID REGISTER" ++ nl, 1)
  | Some t =>
      if strcmp t "?" =? 0 then
        reg_bounds <- print_bounds tid (regs g) ;;
        match reg_bounds with
        | Some b => Ret (g, b, 0)
        | None => Ret (g, "INVALID REGISTER" ++ nl, 1)
        end
      else
        requested_value <- atoi tv ;;
        swap <- replace_value requested_value tid (regs g) ;;
        let (value_swap_check, rs) := swap in
        let g' := {| regs := rs; numofregs := numofregs g |} in
        if value_swap_check =? -2 then Ret (g', "INVALID REGISTER" ++ nl, 1)
        else if value_swap_check =? -1 then Ret (g', "InvalidInput" ++ nl, 2)
        else Ret (g', "OK" ++ nl, 0)
  end.
Proof.
  intros Hp H1 H2 H3 H4. unfold process_atcommand.
  change 6%nat with (String.length "AT+REG"). rewrite strncmp_prefix, Hp.
  rewrite H1, H2. cbn [scanned]. rewrite H3, H4.
  destruct tv as [t|]; [reflexivity|].
  destruct (print_register tid (regs g)) as [v|]; cbn [bind]; [|reflexivity].
  destruct (negb (v =? -1)); [|reflexivity]. now rewrite read_answer_overruns.
Qed.

(** The register id of a request that begins with [AT+REG]. *)
Lemma command_regid request cmd vals a id more :
  String.prefix "AT+REG" request = true ->
  tokens request "=" = cmd :: vals -> tokens cmd "+" = a :: id :: more ->
  exists sfx, id = "REG" ++ sfx /\ id_suffix sfx.
Proof.
  intros Hp Hc Hi. destruct (prefix_split _ _ Hp) as (r & ->).
  destruct (tokens_strtok _ _ _ _ Hc) as (save & Hs & _).
  unfold strtok in Hs. simpl in Hs.
  destruct (cut_token r "=") as [tok sv] eqn:E. inversion Hs; subst cmd save; clear Hs.
  destruct (tokens_strtok _ _ _ _ Hi) as (save1 & Hs1 & Hi1).
  unfold strtok in Hs1. simpl in Hs1. inversion Hs1; subst a save1; clear Hs1.
  destruct (tokens_strtok _ _ _ _ Hi1) as (save2 & Hs2 & _).
  unfold strtok in Hs2. simpl in Hs2.
  destruct (cut_token tok "+") as [t2 s2] eqn:E2. inversion Hs2; subst.
  exists t2. split; [reflexivity|]. split.
  - eapply cut_token_keeps; [|exact E2]. eapply cut_token_free; exact E.
  - eapply cut_token_free; exact E2.
Qed.

End RequestFacts.

Import RequestFacts.

Module StoreFacts.

(** ** The codes of [bound_check] and [replace_value] *)

Lemma distinct_loop_codes x save :
  forall tok c, distinct_loop x tok save = Ret c -> c = 0 \/ c = -1.
Proof.
  remember (String.length save) as n eqn:Hn.
  revert save Hn; induction n as [n IH] using lt_wf_ind; intros save Hn tok c.
  destruct tok as [tok|]; [|simp distinct_loop; intros [= <-]; now right].
  rewrite distinct_loop_some. destruct (atoi (Some tok)) as [k|]; [|discriminate].
  cbn [bind]. destruct (x =? k); [intros [= <-]; now left|].
  destruct (strtok save "|") as [[t'|] save'] eqn:E.
  - apply strtok_save_length in E. apply (IH (String.length save')); lia.
  - simp distinct_loop. intros [= <-]; now right.
Qed.

Lemma bound_check_codes x b c :
  bound_check x b = Ret c -> c = 0 \/ c = -1.
Proof.
  unfold bound_check. destruct (strchr b "|").
  - destruct (strtok b "|") as [tok save]. apply distinct_loop_codes.
  - destruct (strtok b "-") as [lo save]. destruct (strtok save "-") as [hi save'].
    destruct (atoi lo) as [l|]; [|discriminate]. cbn [bind].
    destruct (x >? l); [|intros [= <-]; now right].
    destruct (atoi hi) as [h|]; [|discriminate]. cbn [bind].
    destruct (x <? h); intros [= <-]; auto.
Qed.

Lemma lookup_store_other id id' v rs :
  id' <> id -> lookup id' (store_value id v rs) = lookup id' rs.
Proof.
  intros Hne. induction rs as [|r rs IH]; simpl; [reflexivity|].
  destruct (String.eqb_spec (regid r) id) as [E|E]; simpl.
  - destruct (String.eqb_spec (regid r) id'); [congruence | reflexivity].
  - now rewrite IH.
Qed.

(** ** What a write does *)

(** The three ways a write request returns. *)
Lemma write_cases sfx tok g g' msg c :
  id_suffix sfx -> value_token tok ->
  process_atcommand ("AT+REG" ++ sfx ++ "=" ++ tok) g = Ret (g', msg, c) ->
  in_int (leading_int tok) = true /\
  ((lookup ("REG" ++ sfx) (regs g) = None /\
    g' = g /\ msg = "INVALID REGISTER" ++ nl /\ c = 1) \/
   (exists r, lookup ("REG" ++ sfx) (regs g) = Some r /\
    bound_check (leading_int tok) (bounds r) = Ret (-1) /\
    g' = g /\ msg = "InvalidInput" ++ nl /\ c = 2) \/
   (exists r, lookup ("REG" ++ sfx) (regs g) = Some r /\
    bound_check (leading_int tok) (bounds r) = Ret 0 /\
    g' = stored ("REG" ++ sfx) (leading_int tok) g /\
    msg = "OK" ++ nl /\ c = 0)).
Proof.
  intros Hs Ht H.
  destruct (in_int (leading_int tok)) eqn:Hi.
  2:{ rewrite (atcommand_write sfx tok g Hs Ht) in H. unfold atoi in H.
      rewrite Hi in H. discriminate. }
  split; [reflexivity|].
  rewrite (write_token sfx tok g Hs Ht Hi) in H.
  destruct (lookup ("REG" ++ sfx) (regs g)) as [r|].
  - destruct (bound_check (leading_int tok) (bounds r)) as [k|] eqn:Hb; [|discriminate].
    cbn [bind] in H. destruct (bound_check_codes _ _ _ Hb) as [->| ->];
      cbn in H; inversion H; subst.
    + right; right. exists r. auto.
    + right; left. exists r. auto.
  - left. inversion H; subst. auto.
Qed.

Lemma serve_at request g :
  String.prefix "AT+REG" request = true ->
  serve request g =
  (r <- process_atcommand request g ;;
   let '(g', msg, _) := r in Ret (g', msg, Continue)).
Proof.
  intros Hp. destruct (prefix_split _ _ Hp) as (r & ->).
  apply serve_atcommand; reflexivity.
Qed.

Lemma serve_at_inv request g g' msg ctl :
  String.prefix "AT+REG" request = true ->
  serve request g = Ret (g', msg, ctl) ->
  ctl = Continue /\ exists c, process_atcommand request g = Ret (g', msg, c).
Proof.
  intros Hp H. rewrite (serve_at _ _ Hp) in H.
  destruct (process_atcommand request g) as [[[g1 m1] c1]|]; [|discriminate].
  cbn [bind] in H. inversion H; subst. eauto.
Qed.

(** ** What leaves the globals as they are *)

Lemma replace_value_failed v tid rs k rs' :
  replace_value v tid rs = Ret (k, rs') -> k <> 0 -> rs' = rs.
Proof.
  revert k rs'; induction rs as [|r rs IH]; simpl; intros k rs' H Hk.
  - now inversion H.
  - destruct tid as [t|]; [|discriminate]. cbn [deref bind] in H.
    destruct (strcmp (regid r) t =? 0).
    + destruct (bound_check v (bounds r)) as [c|]; [|discriminate].
      cbn [bind] in H. destruct (negb (c =? -1)); inversion H; subst; congruence.
    + destruct (replace_value v (Some t) rs) as [[k1 rs1]|] eqn:E; [|discriminate].
      cbn [bind fst snd] in H. inversion H; subst. f_equal. eapply IH; eauto.
Qed.

Lemma process_atcommand_silent request g g' msg c :
  process_atcommand request g = Ret (g', msg, c) ->
  msg <> "OK" ++ nl -> g' = g.
Proof.
  unfold process_atcommand. intros H Hm.
  destruct (strncmp request "AT+REG" 6 =? 0); [|now inversion H].
  destruct (strtok request "=") as [mc save].
  destruct (strtok save "=") as [tv save'].
  destruct (strtok (scanned mc save') "+") as [a save1].
  destruct (strtok save1 "+") as [tid save2].
  destruct tv as [tv|].
  - destruct (strcmp tv "?" =? 0).
    + destruct (print_bounds tid (regs g)) as [[b|]|]; cbn [bind] in H;
        now inversion H.
    + destruct (atoi (Some tv)) as [v|]; [|discriminate]. cbn [bind] in H.
      destruct (replace_value v tid (regs g)) as [[k rs]|] eqn:E; [|discriminate].
      cbn [bind] in H. destruct g as [rs0 n]. cbn [regs numofregs] in *.
      destruct (k =? -2) eqn:K2; [|destruct (k =? -1) eqn:K1];
        inversion H; subst; try congruence;
        f_equal; eapply replace_value_failed; eauto; lia.
  - destruct (print_register tid (regs g)) as [v|]; [|discriminate].
    cbn [bind] in H. destruct (negb (v =? -1)); [|now inversion H].
    rewrite read_answer_overruns in H. discriminate.
Qed.

(** ** The end of the loop *)

Lemma prefix_quit_insert q :
  String.prefix "quit" q = true -> String.prefix "insert" q = false.
Proof. intros H. destruct (prefix_split _ _ H) as (r & ->). reflexivity. Qed.

Lemma serve_quit q g :
  String.prefix "quit" q = true ->
  serve q g = Ret (g, "TERMINATING" ++ nl, Break).
Proof.
  intros Hq. unfold serve.
  change 6%nat with (String.length "insert").
  change 4%nat with (String.length "quit").
  now rewrite !strncmp_prefix, (prefix_quit_insert q Hq), Hq.
Qed.

End StoreFacts.

Import Bounds StoreFacts.

(* ================================================================== *)
(** * Further properties of the server *)
(* ================================================================== *)

(** ** Requests, field by field *)

(** X1: a request that begins with [insert] is cut at the ['+']: the
    first non-empty field is skipped whatever it is, the second is read
    with [atoi], the third is the bounds string and the later ones are
    dropped. *)
Theorem insertion_fields (request : string) (g : globals)
  (t1 t2 t3 : string) (rest : list string) :
  String.prefix "insert" request = true ->
  tokens request "+" = t1 :: t2 :: t3 :: rest ->
  in_int (leading_int t2) = true ->
  process_insertion request g = add_register (leading_int t2) t3 g /\
  serve request g =
  (g' <- add_register (leading_int t2) t3 g ;;
   Ret (g', "INSERTION COMPLETE" ++ nl, Continue)).
Proof.
  intros Hp Ht Hi.
  pose proof (process_insertion_tokens request g t1 t2 t3 rest Ht Hi) as H.
  split; [exact H|]. now rewrite (serve_insert request g Hp), H.
Qed.

Lemma insertion_fields_witness :
  serve "insertion+12abc+0-10+junk" two_registers
  = Ret ({| regs := regs two_registers
                    ++ [ {| regid := "REG3"; regvalue := 12; bounds := "0-10" |} ];
            numofregs := 3 |},
         "INSERTION COMPLETE" ++ nl, Continue).
Proof.
  rewrite (proj2 (insertion_fields "insertion+12abc+0-10+junk" two_registers
                    "insertion" "12abc" "0-10" ["junk"] eq_refl eq_refl eq_refl)).
  reflexivity.
Defined.

(** X2: a request that begins with [insert] and holds fewer than three
    non-empty ['+']-fields is never answered: [process_insertion] hands a
    [NULL] token to [atoi] or [strcpy] (or the value overflows before),
    and no register is added. *)
Theorem short_insertion_undefined (request : string) (g : globals) :
  String.prefix "insert" request = true ->
  (List.length (tokens request "+") < 3)%nat ->
  exists f, serve request g = Undef f.
Proof.
  intros Hp Hlen. rewrite (serve_insert request g Hp).
  destruct (process_insertion_short request g Hlen) as (f & ->).
  exists f. reflexivity.
Qed.

Lemma short_insertion_undefined_witness :
  exists f, serve "insert+5" two_registers = Undef f.
Proof.
  apply (short_insertion_undefined "insert+5" two_registers);
    [reflexivity | simpl; lia].
Defined.

(** X3: in a request that begins with [AT+REG], only the first two
    ['=']-fields count, and of the first only its second ['+']-field, the
    register id: the request is served as the plain read, bounds request
    or write made of them. *)
Theorem atcommand_fields (request : string) (g : globals)
  (cmd a id : string) (vals more : list string) :
  String.prefix "AT+REG" request = true ->
  tokens request "=" = cmd :: vals ->
  tokens cmd "+" = a :: id :: more ->
  process_atcommand request g =
  process_atcommand
    ("AT+" ++ id ++ match vals with [] => "" | tv :: _ => "=" ++ tv end) g.
Proof.
  intros Hp Hc Hi.
  destruct (command_regid _ _ _ _ _ _ Hp Hc Hi) as (sfx & -> & Hs).
  destruct (tokens_strtok _ _ _ _ Hc) as (save & H1 & Hv).
  destruct (tokens_strtok _ _ _ _ Hi) as (save1 & H3 & Hi1).
  destruct (tokens_strtok _ _ _ _ Hi1) as (save2 & H4 & _).
  destruct vals as [|tv vals].
  - pose proof (tokens_nil_strtok _ _ Hv) as H2.
    rewrite (process_atcommand_fields request g _ _ _ _ _ _ _ _ Hp H1 H2 H3 H4).
    change ("AT+" ++ ("REG" ++ sfx) ++ "") with ("AT+REG" ++ sfx ++ "").
    replace (sfx ++ "") with sfx by (clear; induction sfx; simpl; congruence).
    now rewrite (atcommand_read sfx g Hs).
  - destruct (tokens_strtok _ _ _ _ Hv) as (save' & H2 & _).
    destruct (strtok_token _ _ _ _ H2) as (Hne & Hfree).
    rewrite (process_atcommand_fields request g _ _ _ _ _ _ _ _ Hp H1 H2 H3 H4).
    change ("AT+" ++ ("REG" ++ sfx) ++ "=" ++ tv) with ("AT+REG" ++ sfx ++ "=" ++ tv).
    rewrite strcmp_eqb. destruct (String.eqb_spec tv "?") as [->|Hq].
    + change ("AT+REG" ++ sfx ++ "=" ++ "?") with ("AT+REG" ++ sfx ++ "=?").
      now rewrite (atcommand_bounds sfx g Hs).
    + now rewrite (atcommand_write sfx tv g Hs (conj Hne (conj Hfree Hq))).
Qed.

Lemma atcommand_fields_witness :
  process_atcommand "AT+REG2+junk=2=9" two_registers
  = process_atcommand "AT+REG2=2" two_registers.
Proof.
  apply (atcommand_fields "AT+REG2+junk=2=9" two_registers
           "AT+REG2+junk" "AT" "REG2" ["2"; "9"] ["junk"]); reflexivity.
Defined.

(** ** What a request changes *)

(** X4: a request changes the globals only when it is answered [OK] or
    [INSERTION COMPLETE]: with every other answer the globals are those
    before. *)
Theorem silent_requests (request : string) (g g' : globals)
  (msg : string) (ctl : control) :
  serve request g = Ret (g', msg, ctl) ->
  msg <> "OK" ++ nl -> msg <> "INSERTION COMPLETE" ++ nl ->
  g' = g.
Proof.
  unfold serve. intros H Hok Hins.
  destruct (strncmp request "insert" 6 =? 0).
  - destruct (process_insertion request g); [|discriminate].
    cbn [bind] in H. inversion H; subst. congruence.
  - destruct (strncmp request "quit" 4 =? 0); [now inversion H|].
    destruct (process_atcommand request g) as [[[g1 m1] c1]|] eqn:E; [|discriminate].
    cbn [bind] in H. inversion H; subst.
    eapply process_atcommand_silent; eauto.
Qed.

Lemma silent_requests_witness :
  exists g',
    serve "AT+REG2=7" two_registers = Ret (g', "InvalidInput" ++ nl, Continue) /\
    g' = two_registers.
Proof.
  eexists. split; [reflexivity|].
  apply (silent_requests "AT+REG2=7" two_registers _ _ _ eq_refl); discriminate.
Defined.

(** X5: a write that is answered [OK] stored a value its register's
    bounds accept: the register existed, the value the token reads as
    passes the bounds check of its unchanged bounds string, and it is the
    value the register holds afterwards. *)
Theorem accepted_write_in_bounds (sfx tok : string) (g g' : globals)
  (ctl : control) :
  id_suffix sfx -> value_token tok ->
  serve ("AT+REG" ++ sfx ++ "=" ++ tok) g = Ret (g', "OK" ++ nl, ctl) ->
  exists r,
    lookup ("REG" ++ sfx) (regs g) = Some r /\
    lookup ("REG" ++ sfx) (regs g')
    = Some {| regid := regid r; regvalue := leading_int tok;
              bounds := bounds r |} /\
    bound_check (leading_int tok) (bounds r) = Ret 0.
Proof.
  intros Hs Ht H.
  destruct (serve_at_inv _ _ _ _ _ (prefix_append "AT+REG" _) H) as (_ & c & Hp).
  destruct (write_cases sfx tok g g' _ c Hs Ht Hp)
    as (_ & [(_ & _ & Hm & _)|[(r & _ & _ & _ & Hm & _)|(r & Hl & Hb & -> & _)]]);
    try discriminate.
  exists r. split; [exact Hl|]. split; [|exact Hb].
  apply lookup_store_value, Hl.
Qed.

Lemma accepted_write_in_bounds_witness :
  exists r,
    lookup "REG2" (regs two_registers) = Some r /\
    lookup "REG2" (regs (stored "REG2" 2 two_registers))
    = Some {| regid := regid r; regvalue := 2; bounds := bounds r |} /\
    bound_check 2 (bounds r) = Ret 0.
Proof.
  apply (accepted_write_in_bounds "2" "2" two_registers
           (stored "REG2" 2 two_registers) Continue).
  - split; reflexivity.
  - repeat split; discriminate.
  - reflexivity.
Defined.

(** X6: after a write answered [OK], [print_register] finds the value
    written in the same register. The read request of that register has
    no defined answer, though: the numeral and the new line that
    [sprintf] writes do not fit the two bytes of [reg_result_string];
    only the value [-1], which a read takes for a missing register, is
    answered, with [INVALID REGISTER]. *)
Theorem write_read_round_trip (sfx tok : string) (g g' : globals)
  (ctl : control) :
  id_suffix sfx -> value_token tok ->
  serve ("AT+REG" ++ sfx ++ "=" ++ tok) g = Ret (g', "OK" ++ nl, ctl) ->
  print_register (Some ("REG" ++ sfx)) (regs g') = Ret (leading_int tok) /\
  serve ("AT+REG" ++ sfx) g'
  = (if leading_int tok =? -1
     then Ret (g', "INVALID REGISTER" ++ nl, Continue)
     else Undef BufferOverrun).
Proof.
  intros Hs Ht H.
  destruct (serve_at_inv _ _ _ _ _ (prefix_append "AT+REG" _) H) as (_ & c & Hp).
  destruct (write_cases sfx tok g g' _ c Hs Ht Hp)
    as (_ & [(_ & _ & Hm & _)|[(r & _ & _ & _ & Hm & _)|(r & Hl & _ & -> & _)]]);
    try discriminate.
  assert (Hpr : print_register (Some ("REG" ++ sfx))
                  (regs (stored ("REG" ++ sfx) (leading_int tok) g))
                = Ret (leading_int tok)).
  { rewrite print_register_lookup. unfold stored. cbn [regs].
    now rewrite (lookup_store_value _ _ _ _ Hl). }
  split; [exact Hpr|].
  rewrite serve_atcommand by reflexivity.
  rewrite (atcommand_read sfx _ Hs), Hpr.
  cbn [bind]. now destruct (leading_int tok =? -1).
Qed.

Lemma write_read_round_trip_witness :
  print_register (Some "REG2") (regs (stored "REG2" 2 two_registers)) = Ret 2 /\
  serve "AT+REG2" (stored "REG2" 2 two_registers) = Undef BufferOverrun.
Proof.
  apply (write_read_round_trip "2" "2" two_registers
           (stored "REG2" 2 two_registers) Continue).
  - split; reflexivity.
  - repeat split; discriminate.
  - reflexivity.
Defined.

(** X7: a write touches one register at most: whatever its answer, every
    register with another id is found as before, and the ids, the bounds
    strings, their order and the counter are unchanged. *)
Theorem write_locality (sfx tok : string) (g g' : globals)
  (msg : string) (ctl : control) :
  id_suffix sfx -> value_token tok ->
  serve ("AT+REG" ++ sfx ++ "=" ++ tok) g = Ret (g', msg, ctl) ->
  (forall id, id <> "REG" ++ sfx -> lookup id (regs g') = lookup id (regs g)) /\
  map regid (regs g') = map regid (regs g) /\
  map bounds (regs g') = map bounds (regs g) /\
  numofregs g' = numofregs g.
Proof.
  intros Hs Ht H.
  destruct (serve_at_inv _ _ _ _ _ (prefix_append "AT+REG" _) H) as (_ & c & Hp).
  destruct (process_atcommand_schema _ _ _ _ _ Hp) as (Hsch & Hn).
  split; [|split; [|split]]; [| | |exact Hn].
  - intros id Hid.
    destruct (write_cases sfx tok g g' _ c Hs Ht Hp)
      as (_ & [(_ & -> & _)|[(r & _ & _ & -> & _)|(r & _ & _ & -> & _)]]);
      try reflexivity.
    cbn [stored regs]. now apply lookup_store_other.
  - rewrite <- !schema_ids. now rewrite Hsch.
  - apply (f_equal (map snd)) in Hsch. unfold schema in Hsch.
    now rewrite !map_map in Hsch.
Qed.

Lemma write_locality_witness :
  lookup "REG1" (regs (stored "REG2" 2 two_registers))
  = lookup "REG1" (regs two_registers).
Proof.
  refine (proj1 (write_locality "2" "2" two_registers
                   (stored "REG2" 2 two_registers) ("OK" ++ nl) Continue
                   _ _ eq_refl) "REG1" _).
  - split; reflexivity.
  - repeat split; discriminate.
  - discriminate.
Defined.

(** ** The end of the loop *)

Lemma serve_break request g g' msg :
  serve request g = Ret (g', msg, Break) -> g' = g /\ msg = "TERMINATING" ++ nl.
Proof.
  unfold serve. intros H. destruct (strncmp request "insert" 6 =? 0).
  - destruct (process_insertion request g); discriminate.
  - destruct (strncmp request "quit" 4 =? 0); [now inversion H|].
    destruct (process_atcommand request g) as [[[g1 m1] c1]|]; discriminate.
Qed.

(** X8: a request that begins with [quit] ends the loop: it is answered
    [TERMINATING], the requests after it are never served, and the list
    the server ends with is empty. Up to there the server writes one
    message per request. *)
Theorem quit_ends_loop (before after : list string) (q : string) (g : globals) :
  String.prefix "quit" q = true ->
  main_loop (before ++ q :: after) g = main_loop (before ++ [q]) g /\
  forall g' msgs,
    main_loop (before ++ [q]) g = Ret (g', msgs) ->
    regs g' = [] /\
    (List.length msgs <= S (List.length before))%nat /\
    exists msgs0, msgs = List.app msgs0 [("TERMINATING" ++ nl)%string].
Proof.
  intros Hq. split.
  - revert g; induction before as [|r before IH]; intros g; cbn [app main_loop].
    + now rewrite (serve_quit q g Hq).
    + destruct (serve r g) as [[[g1 m1] c1]|]; [|reflexivity]. cbn [bind].
      destruct c1; [|reflexivity]. now rewrite IH.
  - revert g; induction before as [|r before IH]; intros g g' msgs;
      cbn [app main_loop].
    + rewrite (serve_quit q g Hq). cbn [bind]. intros [= <- <-].
      split; [reflexivity|]. split; [simpl; lia|]. now exists [].
    + destruct (serve r g) as [[[g1 m1] c1]|] eqn:Es; [|discriminate]. cbn [bind].
      destruct c1 eqn:Ec.
      * destruct (main_loop (before ++ [q]) g1) as [[g2 ms]|] eqn:E; [|discriminate].
        cbn [bind fst snd]. intros [= <- <-].
        destruct (IH _ _ _ E) as (Hr & Hl & ms0 & ->).
        split; [exact Hr|]. split; [simpl in *; lia|]. now exists (m1 :: ms0).
      * intros [= <- <-]. split; [reflexivity|]. split; [simpl; lia|].
        exists []. simpl. f_equal. eapply serve_break; eassumption.
Qed.

Lemma quit_ends_loop_witness :
  main_loop ["AT+REG1=?"; "quit"; "AT+REG2=?"] two_registers
  = Ret ({| regs := []; numofregs := 2 |}, ["0-16535"; "TERMINATING" ++ nl]).
Proof.
  exact (eq_trans
           (proj1 (quit_ends_loop ["AT+REG1=?"] ["AT+REG2=?"] "quit"
                     two_registers eq_refl))
           eq_refl).
Defined.

(** ** Ids *)

(** X9: in every state the server reaches, the count being [n], a
    register id other than [REG1] ... [REG<n>] (written without sign or
    leading zero) names no register: the read, the bounds request and
    every write on it are answered [INVALID REGISTER] and change nothing. *)
Theorem unassigned_id_invalid (g : globals) (sfx : string) :
  reachable g -> id_suffix sfx ->
  (forall k, 1 <= k <= numofregs g -> sfx <> itoa k) ->
  serve ("AT+REG" ++ sfx) g = Ret (g, "INVALID REGISTER" ++ nl, Continue) /\
  serve ("AT+REG" ++ sfx ++ "=?") g
  = Ret (g, "INVALID REGISTER" ++ nl, Continue) /\
  forall tok, value_token tok -> in_int (leading_int tok) = true ->
    serve ("AT+REG" ++ sfx ++ "=" ++ tok) g
    = Ret (g, "INVALID REGISTER" ++ nl, Continue).
Proof.
  intros Hr Hs Hk. destruct (reachable_numbered g Hr) as [Hc Hi _].
  assert (Hl : lookup ("REG" ++ sfx) (regs g) = None).
  { destruct (lookup ("REG" ++ sfx) (regs g)) eqn:E; [|reflexivity]. exfalso.
    assert (Hin : In ("REG" ++ sfx) (map regid (regs g)))
      by (apply lookup_In; congruence).
    rewrite Hi in Hin. apply names_In in Hin as (i & Hid & Hrange).
    unfold reg_name in Hid. inversion Hid as [Hsfx].
    apply (Hk (Z.of_nat i)); [lia | exact Hsfx]. }
  split; [|split].
  - rewrite serve_atcommand by reflexivity.
    now rewrite (atcommand_read sfx g Hs), print_register_lookup, Hl.
  - rewrite serve_atcommand by reflexivity.
    now rewrite (atcommand_bounds sfx g Hs), print_bounds_lookup, Hl.
  - intros tok Ht Hi'. rewrite serve_atcommand by reflexivity.
    now rewrite (write_token sfx tok g Hs Ht Hi'), Hl.
Qed.

Lemma unassigned_id_invalid_witness :
  serve "AT+REG02" two_registers
  = Ret (two_registers, "INVALID REGISTER" ++ nl, Continue).
Proof.
  refine (proj1 (unassigned_id_invalid two_registers "02" _ _ _)).
  - exists two_registers; split; [reflexivity | constructor].
  - split; reflexivity.
  - intros k Hk. simpl in Hk.
    assert (Hcases : k = 1 \/ k = 2) by lia.
    destruct Hcases as [-> | ->]; vm_compute; discriminate.
Defined.

(** ** The list over time *)

(** X10: the list only grows: from a state the server reaches to any
    later one, the registers that were there keep their place, their id
    and their bounds string, new ones come after them, and the counter
    goes up by the number of new registers; there are never fewer than
    the two registers of the start. *)
Theorem store_only_grows (g g' : globals) :
  reachable g -> evolves g g' ->
  2 <= numofregs g /\
  exists more,
    map (fun r => (regid r, bounds r)) (regs g')
    = (map (fun r => (regid r, bounds r)) (regs g) ++ more)%list /\
    numofregs g' = numofregs g + Z.of_nat (List.length more).
Proof.
  intros Hr He. pose proof (reachable_numbered g Hr) as Hg.
  pose proof (evolves_numbered _ _ He Hg) as Hg'.
  split.
  - destruct Hr as (g0 & H0 & He0). inversion H0; subst g0.
    destruct (evolves_schema _ _ He0 (startup_numbered _ eq_refl)) as (m0 & Hm0).
    apply (f_equal (@List.length _)) in Hm0. unfold schema in Hm0.
    rewrite length_app, !length_map in Hm0. simpl in Hm0.
    rewrite (numbered_count g Hg). lia.
  - destruct (evolves_schema _ _ He Hg) as (more & Hm). exists more.
    split; [exact Hm|]. apply (f_equal (@List.length _)) in Hm.
    unfold schema in Hm. rewrite length_app, !length_map in Hm.
    rewrite (numbered_count g Hg), (numbered_count g' Hg'). lia.
Qed.

Lemma store_only_grows_witness :
  2 <= numofregs two_registers /\
  exists more,
    map (fun r => (regid r, bounds r))
        (regs two_registers ++ [ {| regid := "REG3"; regvalue := 5; bounds := "0-10" |} ])
    = (map (fun r => (regid r, bounds r)) (regs two_registers) ++ more)%list /\
    3 = numofregs two_registers + Z.of_nat (List.length more).
Proof.
  apply (store_only_grows two_registers
           {| regs := regs two_registers
                      ++ [ {| regid := "REG3"; regvalue := 5; bounds := "0-10" |} ];
              numofregs := 3 |}).
  - exists two_registers; split; [reflexivity | constructor].
  - eapply (evolves_step _ "insert+5+0-10"); [reflexivity | apply evolves_refl].
Defined.

Module ListFacts.

Lemma pieces_end p d : free_of p d = true -> pieces p d = [p].
Proof.
  induction p as [|a p IH]; simpl; [reflexivity|].
  intros H. apply andb_prop in H as [Ha Hp]. apply negb_true_iff in Ha.
  now rewrite Ha, (IH Hp).
Qed.

Lemma pieces_delim p c r d :
  free_of p d = true -> strchr d c = true ->
  pieces (p ++ String c r) d = p :: pieces r d.
Proof.
  intros Hp Hc. induction p as [|a p IH]; simpl in *.
  - now rewrite Hc.
  - apply andb_prop in Hp as [Ha Hp]. apply negb_true_iff in Ha.
    now rewrite Ha, (IH Hp).
Qed.

Lemma itoa_token n : nonempty (itoa n) = true.
Proof.
  unfold nonempty. apply negb_true_iff, String.eqb_neq, itoa_nonempty.
Qed.

Lemma tokens_discrete vs :
  vs <> [] -> tokens (discrete_string vs) "|" = map itoa vs.
Proof.
  unfold discrete_string, tokens.
  induction vs as [|v vs IH]; [congruence|]. intros _.
  destruct vs as [|w vs].
  - simpl. rewrite pieces_end by (apply itoa_free, no_numeral_char_bar).
    simpl. now rewrite itoa_token.
  - change (String.concat "|" (map itoa (v :: w :: vs)))
      with (itoa v ++ String "|" (String.concat "|" (map itoa (w :: vs)))).
    rewrite pieces_delim by (try reflexivity; apply itoa_free, no_numeral_char_bar).
    cbn [filter map]. rewrite itoa_token. f_equal. apply IH. discriminate.
Qed.

Lemma strchr_discrete v w vs :
  strchr (discrete_string (v :: w :: vs)) "|" = true.
Proof.
  unfold discrete_string.
  change (String.concat "|" (map itoa (v :: w :: vs)))
    with (itoa v ++ String "|" (String.concat "|" (map itoa (w :: vs)))).
  rewrite strchr_append. simpl. apply orb_true_r.
Qed.

Lemma serve_break_quit request g g' msg :
  serve request g = Ret (g', msg, Break) -> String.prefix "quit" request = true.
Proof.
  unfold serve. intros H. destruct (strncmp request "insert" 6 =? 0).
  - destruct (process_insertion request g); discriminate.
  - change 4%nat with (String.length "quit") in H. rewrite strncmp_prefix in H.
    destruct (String.prefix "quit" request); [reflexivity|].
    destruct (process_atcommand request g) as [[[g1 m1] c1]|]; discriminate.
Qed.


End ListFacts.
Import ListFacts.

(** X11: the server writes one message per request it serves: as many
    messages as requests when none begins with [quit], never more. *)
Theorem one_answer_per_request (requests : list string) (g g' : globals)
  (msgs : list string) :
  main_loop requests g = Ret (g', msgs) ->
  (List.length msgs <= List.length requests)%nat /\
  (Forall (fun r => String.prefix "quit" r = false) requests ->
   List.length msgs = List.length requests).
Proof.
  revert g g' msgs; induction requests as [|r requests IH]; intros g g' msgs;
    cbn [main_loop].
  - intros [= <- <-]. split; [simpl; lia | reflexivity].
  - destruct (serve r g) as [[[g1 m1] c1]|] eqn:Es; [|discriminate]. cbn [bind].
    destruct c1.
    + destruct (main_loop requests g1) as [[g2 ms]|] eqn:E; [|discriminate].
      cbn [bind fst snd]. intros [= <- <-]. destruct (IH _ _ _ E) as (Hle & Heq).
      split; [simpl; lia|]. intros Hq. apply Forall_cons_iff in Hq as [_ Hq].
      simpl. now rewrite (Heq Hq).
    + intros [= <- <-]. split; [simpl; lia|]. intros Hq.
      apply Forall_cons_iff in Hq as [Hq _].
      apply serve_break_quit in Es. congruence.
Qed.

Lemma one_answer_per_request_witness :
  exists g' msgs,
    main_loop ["AT+REG1=?"; "FOOBAR"; "AT+REG9=?"] two_registers = Ret (g', msgs) /\
    List.length msgs = 3%nat.
Proof.
  eexists. eexists. split; [reflexivity|].
  refine (proj2 (one_answer_per_request ["AT+REG1=?"; "FOOBAR"; "AT+REG9=?"]
                   two_registers _ _ eq_refl) _).
  repeat constructor.
Defined.

(** X12: for a register whose bounds string lists [int]s [v1|...|vn],
    two at least and negative ones too, the bounds check accepts exactly
    the listed values. *)
Theorem discrete_list_membership (vs : list Z) (x : Z) :
  (2 <= List.length vs)%nat ->
  Forall (fun v => in_int v = true) vs ->
  (In x vs -> bound_check x (discrete_string vs) = Ret 0) /\
  (~ In x vs -> bound_check x (discrete_string vs) = Ret (-1)).
Proof.
  intros Hlen Hint. destruct vs as [|v [|w vs]]; try (simpl in Hlen; lia).
  set (l := v :: w :: vs) in *.
  assert (Ht : tokens (discrete_string l) "|" = map itoa l)
    by (apply tokens_discrete; discriminate).
  assert (Hp : int_pieces (tokens (discrete_string l) "|")).
  { rewrite Ht. unfold int_pieces. rewrite Forall_map.
    eapply Forall_impl; [|exact Hint]. intros z Hz. now rewrite leading_int_itoa. }
  rewrite (bound_check_distinct x (discrete_string l) (strchr_discrete v w vs) Hp), Ht.
  assert (Hex : existsb (reads_as x) (map itoa l) = true <-> In x l).
  { rewrite existsb_exists. unfold reads_as. split.
    - intros (t & Hin & Heq). apply in_map_iff in Hin as (z & <- & Hz).
      rewrite leading_int_itoa in Heq. apply Z.eqb_eq in Heq. now subst.
    - intros Hin. exists (itoa x). split; [now apply in_map|].
      rewrite leading_int_itoa. apply Z.eqb_refl. }
  split.
  - intros Hin. apply Hex in Hin. now rewrite Hin.
  - intros Hnin. destruct (existsb (reads_as x) (map itoa l)); [|reflexivity].
    exfalso. apply Hnin, Hex. reflexivity.
Qed.

Lemma discrete_list_membership_witness :
  discrete_string [-1; 2; 30] = "-1|2|30" /\
  bound_check (-1) "-1|2|30" = Ret 0 /\ bound_check 3 "-1|2|30" = Ret (-1).
Proof.
  assert (H := discrete_list_membership [-1; 2; 30]).
  split; [reflexivity|]. split.
  - apply (proj1 (H (-1) ltac:(simpl; lia) ltac:(repeat constructor))).
    simpl. tauto.
  - apply (proj2 (H 3 ltac:(simpl; lia) ltac:(repeat constructor))).
    simpl. intros [E|[E|[E|[]]]]; discriminate.
Defined.



(** ** The arrays of the register id *)

Module CapacityFacts.





End CapacityFacts.
Import CapacityFacts.



(* ================================================================== *)
(** * Facts about commonfunc.c *)
(* ================================================================== *)

Module CommonFacts.
Import Common.

Lemma log_some c a r total calls :
  log c a r = Some (total, calls) ->
  exists calls', calls = (c, a) :: calls' /\ r = Some (total, calls').
Proof.
  destruct r as [[t cs]|]; simpl; [|discriminate].
  intros [= <- <-]. eauto.
Qed.

Lemma last_cons (l : list Z) (a d : Z) : last (a :: l) d = last l a.
Proof.
  revert a d; induction l as [|z l IH]; intros a d; [reflexivity|].
  change (last (a :: z :: l) d) with (last (z :: l) d). now rewrite !IH.
Qed.

Lemma read_loop_spec answers needed :
  forall total br r calls,
    read_loop answers needed total br = Some (r, calls) ->
    r = total + transferred calls /\ chained needed total calls /\
    (needed <= r \/ last (map snd calls) br = 0).
Proof.
  induction answers as [|a rest IH]; intros total br r calls; cbn [read_loop].
  - destruct ((total <? needed) && negb (br =? 0)) eqn:C; [discriminate|].
    intros [= <- <-]. simpl. split; [lia|]. split; [exact I|].
    apply andb_false_iff in C as [C|C].
    + left. apply Z.ltb_ge in C. lia.
    + right. apply negb_false_iff, Z.eqb_eq in C. exact C.
  - destruct ((total <? needed) && negb (br =? 0)) eqn:C.
    + intros H. apply log_some in H as (calls' & -> & H).
      destruct (IH _ _ _ _ H) as (Hr & Hc & Hl). cbn [transferred fold_right snd].
      split; [fold (transferred calls'); lia|]. split; [simpl; auto|].
      destruct Hl as [Hl|Hl]; [now left|]. right.
      cbn [map snd]. now rewrite last_cons.
    + intros [= <- <-]. simpl. split; [lia|]. split; [exact I|].
      apply andb_false_iff in C as [C|C].
      * left. apply Z.ltb_ge in C. lia.
      * right. apply negb_false_iff, Z.eqb_eq in C. exact C.
Qed.

Lemma write_loop_spec answers needed :
  forall total r calls,
    write_loop answers needed total = Some (r, calls) ->
    r = total + transferred calls /\ chained needed total calls /\ needed <= r.
Proof.
  induction answers as [|a rest IH]; intros total r calls; cbn [write_loop].
  - destruct (total <? needed) eqn:C; [discriminate|].
    intros [= <- <-]. apply Z.ltb_ge in C. simpl. repeat split; lia.
  - destruct (total <? needed) eqn:C.
    + intros H. apply log_some in H as (calls' & -> & H).
      destruct (IH _ _ _ H) as (Hr & Hc & Hl). cbn [transferred fold_right snd].
      split; [fold (transferred calls'); lia|]. split; [simpl; auto|exact Hl].
    + intros [= <- <-]. apply Z.ltb_ge in C. simpl. repeat split; lia.
Qed.

(** With a polite system the total never passes what is needed. *)
Lemma chained_polite needed start calls :
  start <= needed -> chained needed start calls -> polite calls ->
  start <= start + transferred calls <= needed.
Proof.
  revert start; induction calls as [|[c a] calls IH]; intros start Hf Hc Hp.
  - simpl. lia.
  - destruct Hc as (Ho & Ha & Hc). apply Forall_cons_iff in Hp as [Hca Hp'].
    cbn [fst snd] in Hca. cbn [transferred fold_right snd].
    fold (transferred calls).
    assert (start + a <= needed) by lia.
    specialize (IH (start + a) H Hc Hp'). lia.
Qed.

Lemma chained_next needed start pre c a d b post :
  chained needed start (pre ++ (c, a) :: (d, b) :: post)%list ->
  offset d = offset c + a /\ asked d = asked c - a.
Proof.
  revert start; induction pre as [|[c0 a0] pre IH]; intros start; simpl.
  - intros (Ho & Ha & Ho' & Ha' & _). lia.
  - intros (_ & _ & H). eapply IH; eauto.
Qed.

End CommonFacts.

Import Common CommonFacts.

Module TransferFacts.

Lemma log_returns c a r : r <> None -> log c a r <> None.
Proof. destruct r as [[t cs]|]; simpl; congruence. Qed.

(** An answer [0] ends the loop of [my_read], if nothing did before. *)
Lemma read_loop_returns answers needed :
  forall total br, In 0 answers -> read_loop answers needed total br <> None.
Proof.
  induction answers as [|a rest IH]; intros total br Hin; [destruct Hin|].
  cbn [read_loop]. destruct ((total <? needed) && negb (br =? 0)); [|discriminate].
  apply log_returns. destruct Hin as [->|Hin]; [|now apply IH].
  destruct rest; cbn [read_loop]; rewrite Z.eqb_refl, andb_false_r; discriminate.
Qed.

(** The loop of [my_write] ends once the answers add up to what is
    needed. *)
Lemma write_loop_returns answers needed :
  forall total, Forall (fun a => 0 <= a) answers ->
    needed <= total + fold_right Z.add 0 answers ->
    write_loop answers needed total <> None.
Proof.
  induction answers as [|a rest IH]; intros total Hpos Hsum; cbn [write_loop].
  - simpl in Hsum. destruct (total <? needed) eqn:C; [|discriminate].
    apply Z.ltb_lt in C. lia.
  - destruct (total <? needed); [|discriminate]. apply log_returns.
    apply Forall_cons_iff in Hpos as [Ha Hpos]. apply IH; [exact Hpos|].
    simpl in Hsum. lia.
Qed.

(** ** After a failed call *)

(** Below what is needed, and the last answer not [0], the loop of
    [my_read] makes a call. *)
Lemma read_loop_goes_on answers needed total br r calls :
  total < needed -> br <> 0 ->
  read_loop answers needed total br = Some (r, calls) -> calls <> [].
Proof.
  intros Ht Hb. destruct answers as [|a rest]; cbn [read_loop];
    replace ((total <? needed) && negb (br =? 0)) with true
      by (symmetry; apply andb_true_intro; split;
          [apply Z.ltb_lt; lia | apply negb_true_iff, Z.eqb_neq; exact Hb]);
    [discriminate|].
  intros H. apply log_some in H as (calls' & -> & _). discriminate.
Qed.

Lemma write_loop_goes_on answers needed total r calls :
  total < needed ->
  write_loop answers needed total = Some (r, calls) -> calls <> [].
Proof.
  intros Ht. destruct answers as [|a rest]; cbn [write_loop];
    replace (total <? needed) with true by (symmetry; apply Z.ltb_lt; lia);
    [discriminate|].
  intros H. apply log_some in H as (calls' & -> & _). discriminate.
Qed.

(** A call of the loop that is answered [-1] is not the last one. *)
Lemma read_loop_after_error answers needed :
  forall total br r calls pre c rest,
    read_loop answers needed total br = Some (r, calls) ->
    calls = (pre ++ (c, -1) :: rest)%list -> rest <> [].
Proof.
  induction answers as [|a answers IH]; intros total br r calls pre c rest;
    cbn [read_loop]; destruct ((total <? needed) && negb (br =? 0)) eqn:C;
    try discriminate;
    try (intros [= <- <-] Hc; destruct pre; discriminate).
  intros H Hc. apply log_some in H as (calls' & -> & H).
  destruct pre as [|p pre]; simpl in Hc; inversion Hc; subst.
  - apply andb_prop in C as [C _]. apply Z.ltb_lt in C.
    eapply read_loop_goes_on; [| |exact H]; lia.
  - eapply IH; [exact H | reflexivity].
Qed.

Lemma write_loop_after_error answers needed :
  forall total r calls pre c rest,
    write_loop answers needed total = Some (r, calls) ->
    calls = (pre ++ (c, -1) :: rest)%list -> rest <> [].
Proof.
  induction answers as [|a answers IH]; intros total r calls pre c rest;
    cbn [write_loop]; destruct (total <? needed) eqn:C;
    try discriminate;
    try (intros [= <- <-] Hc; destruct pre; discriminate).
  intros H Hc. apply log_some in H as (calls' & -> & H).
  destruct pre as [|p pre]; simpl in Hc; inversion Hc; subst.
  - apply Z.ltb_lt in C. eapply write_loop_goes_on; [|exact H]. lia.
  - eapply IH; [exact H | reflexivity].
Qed.

(** Calls that all fail never end the loops. *)
Lemma read_loop_all_fail answers needed :
  forall total br,
    Forall (fun a => a = -1) answers -> total < needed -> br <> 0 ->
    read_loop answers needed total br = None.
Proof.
  induction answers as [|a answers IH]; intros total br Hall Ht Hb;
    cbn [read_loop];
    replace ((total <? needed) && negb (br =? 0)) with true
      by (symmetry; apply andb_true_intro; split;
          [apply Z.ltb_lt; lia | apply negb_true_iff, Z.eqb_neq; exact Hb]);
    [reflexivity|].
  apply Forall_cons_iff in Hall as [-> Hall].
  rewrite (IH (total + -1) (-1) Hall); [reflexivity | lia | lia].
Qed.

Lemma write_loop_all_fail answers needed :
  forall total,
    Forall (fun a => a = -1) answers -> total < needed ->
    write_loop answers needed total = None.
Proof.
  induction answers as [|a answers IH]; intros total Hall Ht;
    cbn [write_loop];
    replace (total <? needed) with true by (symmetry; apply Z.ltb_lt; lia);
    [reflexivity|].
  apply Forall_cons_iff in Hall as [-> Hall].
  rewrite (IH (total + -1) Hall); [reflexivity | lia].
Qed.

End TransferFacts.
Import TransferFacts.

(* ================================================================== *)
(** * Properties of commonfunc.c *)
(* ================================================================== *)

(** X14: [my_read] returns as soon as a call answers [0]. When it
    returns and every call was answered with a count between [0] and the
    count it asked for, the calls fill the buffer in order (each starts
    where the bytes read so far end and asks for what is missing), the
    result is the number of bytes read, at most [count], and it is less
    than [count] only if the last call answered [0]. *)
Theorem my_read_polite (count : Z) (answers : list Z) :
  0 <= count ->
  (In 0 answers -> my_read count answers <> None) /\
  forall total calls,
    my_read count answers = Some (total, calls) -> polite calls ->
    chained count 0 calls /\ total = transferred calls /\
    0 <= total <= count /\ (total = count \/ last_answer calls = 0).
Proof.
  intros Hcount. split.
  - destruct answers as [|a rest]; [intros []|]. intros Hin. unfold my_read.
    apply log_returns. destruct Hin as [->|Hin]; [|now apply read_loop_returns].
    destruct rest; cbn [read_loop]; rewrite Z.eqb_refl, andb_false_r; discriminate.
  - intros total calls H Hp. destruct answers as [|a rest]; [discriminate|].
    unfold my_read in H. apply log_some in H as (calls' & -> & H).
    destruct (read_loop_spec _ _ _ _ _ _ H) as (Hr & Hc & Hl).
    assert (Hch : chained count 0 (({| offset := 0; asked := count |}, a) :: calls'))
      by (simpl; repeat split; [lia | exact Hc]).
    pose proof (chained_polite count 0 _ Hcount Hch Hp) as Hb.
    cbn [transferred fold_right snd] in *. fold (transferred calls') in *.
    split; [exact Hch|]. split; [lia|]. split; [lia|].
    destruct Hl as [Hl|Hl]; [left; lia|]. right.
    unfold last_answer. cbn [map snd]. now rewrite last_cons.
Qed.

(** Twenty bytes asked for, delivered as 8, 7 and 5. *)
Lemma my_read_polite_witness :
  my_read 20 [8; 7; 5]
  = Some (20, [ ({| offset := 0; asked := 20 |}, 8);
                ({| offset := 8; asked := 12 |}, 7);
                ({| offset := 15; asked := 5 |}, 5) ]) /\
  0 <= 20 <= 20.
Proof.
  split; [reflexivity|].
  refine (proj1 (proj2 (proj2 (proj2 (my_read_polite 20 [8; 7; 5] _) 20 _
                                 eq_refl _)))).
  - lia.
  - repeat constructor; simpl; lia.
Defined.

(** X15: [my_write] returns once the counts written add up to [count]
    (no call answering an error), and never before: its result is never
    less than [count]. When every call was answered with a count between
    [0] and the count it asked for, the calls send the buffer in order
    and the result is [count] exactly. *)
Theorem my_write_complete (count : Z) (answers : list Z) :
  0 <= count ->
  (answers <> [] -> Forall (fun a => 0 <= a) answers ->
   count <= fold_right Z.add 0 answers -> my_write count answers <> None) /\
  forall total calls,
    my_write count answers = Some (total, calls) ->
    count <= total /\ chained count 0 calls /\ total = transferred calls /\
    (polite calls -> total = count).
Proof.
  intros Hcount. split.
  - destruct answers as [|a rest]; [congruence|]. intros _ Hpos Hsum.
    unfold my_write. apply log_returns.
    apply Forall_cons_iff in Hpos as [Ha Hpos].
    apply write_loop_returns; [exact Hpos | simpl in Hsum; lia].
  - intros total calls H. destruct answers as [|a rest]; [discriminate|].
    unfold my_write in H. apply log_some in H as (calls' & -> & H).
    destruct (write_loop_spec _ _ _ _ _ H) as (Hr & Hc & Hl).
    assert (Hch : chained count 0 (({| offset := 0; asked := count |}, a) :: calls'))
      by (simpl; repeat split; [lia | exact Hc]).
    cbn [transferred fold_right snd]. fold (transferred calls').
    split; [exact Hl|]. split; [exact Hch|]. split; [lia|].
    intros Hp. pose proof (chained_polite count 0 _ Hcount Hch Hp) as Hb.
    cbn [transferred fold_right snd] in Hb. fold (transferred calls') in Hb. lia.
Qed.

(** Twenty bytes to write, taken as 8, 0 and 12. *)
Lemma my_write_complete_witness :
  my_write 20 [8; 0; 12]
  = Some (20, [ ({| offset := 0; asked := 20 |}, 8);
                ({| offset := 8; asked := 12 |}, 0);
                ({| offset := 8; asked := 12 |}, 12) ]) /\
  20 <= 20.
Proof.
  split; [reflexivity|].
  refine (proj1 (proj2 (my_write_complete 20 [8; 0; 12] _) 20 _ eq_refl)).
  lia.
Defined.

(** X16: neither function stops on an error. While every call fails,
    neither returns. In the calls of a run that returns, a call answered
    [-1] is never the last: it is counted as minus one byte, and the call
    after it starts one byte before the failed one and asks for one byte
    more; after a failed first call that is one byte before the buffer. *)
Theorem failed_call_rewinds (count : Z) (answers : list Z) :
  0 <= count ->
  (Forall (fun a => a = -1) answers ->
   my_read count answers = None /\ my_write count answers = None) /\
  forall (total : Z) (calls pre rest : trace) (c : call),
    my_read count answers = Some (total, calls) \/
    my_write count answers = Some (total, calls) ->
    calls = (pre ++ (c, -1) :: rest)%list ->
    exists d a post,
      rest = (d, a) :: post /\
      offset d = offset c - 1 /\ asked d = asked c + 1 /\
      (pre = [] -> offset d = -1 /\ asked d = count + 1).
Proof.
  intros Hcount. split.
  - intros Hall. destruct answers as [|a0 answers]; [split; reflexivity|].
    apply Forall_cons_iff in Hall as [-> Hall]. unfold my_read, my_write.
    rewrite (read_loop_all_fail answers count (-1) (-1) Hall) by lia.
    rewrite (write_loop_all_fail answers count (-1) Hall) by lia.
    split; reflexivity.
  - intros total calls pre rest c H Hcalls.
    assert (Hch : chained count 0 calls /\ rest <> []).
    { destruct answers as [|a0 answers]; [destruct H; discriminate|].
      destruct H as [H|H].
      - unfold my_read in H. apply log_some in H as (calls' & -> & H).
        destruct (read_loop_spec _ _ _ _ _ _ H) as (_ & Hc & _).
        split; [simpl; repeat split; [lia | exact Hc]|].
        destruct pre as [|p pre]; simpl in Hcalls; inversion Hcalls; subst.
        + eapply read_loop_goes_on; [| |exact H]; lia.
        + eapply read_loop_after_error; [exact H | reflexivity].
      - unfold my_write in H. apply log_some in H as (calls' & -> & H).
        destruct (write_loop_spec _ _ _ _ _ H) as (_ & Hc & _).
        split; [simpl; repeat split; [lia | exact Hc]|].
        destruct pre as [|p pre]; simpl in Hcalls; inversion Hcalls; subst.
        + eapply write_loop_goes_on; [|exact H]. lia.
        + eapply write_loop_after_error; [exact H | reflexivity]. }
    destruct Hch as (Hch & Hrest).
    destruct rest as [|[d a] post]; [congruence|].
    exists d, a, post. split; [reflexivity|].
    rewrite Hcalls in Hch.
    destruct (chained_next _ _ _ _ _ _ _ _ Hch) as (Ho & Ha).
    split; [lia|]. split; [lia|]. intros ->. simpl in Hch.
    destruct Hch as (Hc0 & Hc1 & _). lia.
Qed.

(** The first [read] fails: the second is asked for 21 bytes at
    [buf - 1]. With failing calls alone there is no result. *)
Lemma failed_call_rewinds_witness :
  my_read 20 [-1; -1; -1] = None /\
  my_read 20 [-1; 21]
  = Some (20, [ ({| offset := 0; asked := 20 |}, -1);
                ({| offset := -1; asked := 21 |}, 21) ]) /\
  exists d a post,
    [ ({| offset := -1; asked := 21 |}, 21) ] = (d, a) :: post /\
    offset d = -1 /\ asked d = 21.
Proof.
  assert (H0 : 0 <= 20) by lia.
  split; [|split; [reflexivity|]].
  - apply (proj1 (failed_call_rewinds 20 [-1; -1; -1] H0)).
    repeat constructor.
  - destruct (proj2 (failed_call_rewinds 20 [-1; 21] H0) 20 _ []
                [ ({| offset := -1; asked := 21 |}, 21) ]
                {| offset := 0; asked := 20 |}
                (or_introl eq_refl) eq_refl)
      as (d & a & post & Hr & _ & _ & Hfirst).
    exists d, a, post. split; [exact Hr|]. exact (Hfirst eq_refl).
Defined.

(* ================================================================== *)
(** * Facts about client.c *)
(* ================================================================== *)

Module ClientFacts.
Import Client.

(** The numbers that fit [reg_pos]: one character and the [NUL]. *)
Lemma itoa_one_char n :
  (String.length (itoa n) <? 2)%nat = (0 <=? n) && (n <=? 9).
Proof.
  unfold itoa. destruct (n <? 0) eqn:Hneg.
  - apply Z.ltb_lt in Hneg.
    replace (0 <=? n) with false by (symmetry; apply Z.leb_gt; lia).
    destruct (digits_of_spec (- n)) as (_ & Hne & _); [lia|].
    destruct (digits_of (- n)); [congruence | reflexivity].
  - apply Z.ltb_ge in Hneg.
    replace (0 <=? n) with true by (symmetry; apply Z.leb_le; lia).
    unfold digits_of. cbn [digits_fuel andb]. destruct (n <? 10) eqn:H10.
    + apply Z.ltb_lt in H10.
      replace (n <=? 9) with true by (symmetry; apply Z.leb_le; lia).
      reflexivity.
    + apply Z.ltb_ge in H10.
      replace (n <=? 9) with false by (symmetry; apply Z.leb_gt; lia).
      rewrite string_length_app.
      assert (Hlog : 3 <= Z.log2 n).
      { change 3 with (Z.log2 10). apply Z.log2_le_mono. lia. }
      destruct (Z.to_nat (Z.log2 n)) as [|fuel] eqn:Ef; [lia|].
      pose proof (digits_fuel_nonempty fuel (n / 10)) as Hne.
      destruct (digits_fuel (S fuel) (n / 10)); [congruence|].
      simpl. apply Nat.ltb_ge. lia.
Qed.

Lemma sprintf_int_fits n :
  0 <= n <= 9 -> sprintf_int 2 n = Done (itoa n).
Proof.
  intros H. unfold sprintf_int. rewrite itoa_one_char.
  replace (0 <=? n) with true by (symmetry; apply Z.leb_le; lia).
  replace (n <=? 9) with true by (symmetry; apply Z.leb_le; lia).
  reflexivity.
Qed.

Lemma sprintf_int_overruns n :
  ~ 0 <= n <= 9 -> sprintf_int 2 n = Crash Overrun.
Proof.
  intros H. unfold sprintf_int. rewrite itoa_one_char.
  destruct (0 <=? n) eqn:H0; [|reflexivity].
  destruct (n <=? 9) eqn:H9; [|reflexivity].
  apply Z.leb_le in H0, H9. lia.
Qed.

Lemma store_entry_fits i line m :
  0 <= i < MAX_STRING -> store_entry i line m = Done (set_entry i line m).
Proof.
  intros H. unfold store_entry.
  replace (0 <=? i) with true by (symmetry; apply Z.leb_le; lia).
  replace (i <? MAX_STRING) with true by (symmetry; apply Z.ltb_lt; lia).
  reflexivity.
Qed.

Lemma store_entry_done i line m m' :
  store_entry i line m = Done m' ->
  0 <= i < MAX_STRING /\ m' = set_entry i line m.
Proof.
  unfold store_entry. destruct (0 <=? i) eqn:H0; [|discriminate].
  destruct (i <? MAX_STRING) eqn:H1; [|discriminate].
  apply Z.leb_le in H0. apply Z.ltb_lt in H1. cbn [andb].
  intros [= <-]. split; [lia | reflexivity].
Qed.

(** A request that begins with [insert] is neither [help] nor [quit]. *)
Lemma insert_not_local request :
  String.prefix "insert" request = true ->
  (strcmp request "help" =? 0) = false /\ (strcmp request "quit" =? 0) = false.
Proof.
  intros H. destruct (prefix_split _ _ H) as (r & ->).
  rewrite !strcmp_eqb. split; reflexivity.
Qed.

Lemma three_lines_spec g :
  three_lines g (last_entry g)
  = Some (read_line ("REG" ++ itoa (reg_count g)) (reg_count g)) /\
  three_lines g (last_entry g + 1)
  = Some (bounds_line ("REG" ++ itoa (reg_count g)) (reg_count g)) /\
  three_lines g (last_entry g + 2)
  = Some (write_line ("REG" ++ itoa (reg_count g)) (reg_count g)) /\
  forall i, ~ last_entry g <= i < last_entry g + 3 -> three_lines g i = menu g i.
Proof.
  unfold three_lines, set_entry. rewrite !Z.eqb_refl.
  replace (last_entry g =? last_entry g + 2) with false
    by (symmetry; apply Z.eqb_neq; lia).
  replace (last_entry g =? last_entry g + 1) with false
    by (symmetry; apply Z.eqb_neq; lia).
  replace (last_entry g + 1 =? last_entry g + 2) with false
    by (symmetry; apply Z.eqb_neq; lia).
  repeat split. intros i Hi.
  replace (i =? last_entry g + 2) with false
    by (symmetry; apply Z.eqb_neq; lia).
  replace (i =? last_entry g + 1) with false
    by (symmetry; apply Z.eqb_neq; lia).
  replace (i =? last_entry g) with false
    by (symmetry; apply Z.eqb_neq; lia).
  reflexivity.
Qed.

Lemma update_menu_tokens request g t1 t2 t3 rest :
  tokens request "+" = t1 :: t2 :: t3 :: rest ->
  0 <= reg_count g <= 9 ->
  0 <= last_entry g <= MAX_STRING - 3 ->
  update_menu request g =
  Done {| menu := three_lines g;
          last_entry := last_entry g + 3;
          reg_count := reg_count g |}.
Proof.
  intros Ht Hc Hl.
  destruct (tokens_strtok _ _ _ _ Ht) as (s1 & H1 & Ht1).
  destruct (tokens_strtok _ _ _ _ Ht1) as (s2 & H2 & Ht2).
  destruct (tokens_strtok _ _ _ _ Ht2) as (s3 & H3 & _).
  unfold update_menu. rewrite H1, H2, H3. cbn [deref lift andthen].
  rewrite (sprintf_int_fits _ Hc). cbn [andthen].
  unfold MAX_STRING in Hl.
  do 3 (rewrite store_entry_fits by (unfold MAX_STRING; lia); cbn [andthen]).
  reflexivity.
Qed.

Lemma update_menu_overruns request g t1 t2 t3 rest :
  tokens request "+" = t1 :: t2 :: t3 :: rest ->
  ~ 0 <= reg_count g <= 9 ->
  update_menu request g = Crash Overrun.
Proof.
  intros Ht Hc.
  destruct (tokens_strtok _ _ _ _ Ht) as (s1 & H1 & Ht1).
  destruct (tokens_strtok _ _ _ _ Ht1) as (s2 & H2 & Ht2).
  destruct (tokens_strtok _ _ _ _ Ht2) as (s3 & H3 & _).
  unfold update_menu. rewrite H1, H2, H3. cbn [deref lift andthen].
  now rewrite (sprintf_int_overruns _ Hc).
Qed.

Lemma update_menu_short request g :
  (List.length (tokens request "+") < 3)%nat ->
  update_menu request g = Crash (Library NullDeref).
Proof.
  intros Hlen. unfold update_menu.
  destruct (tokens request "+") as [|t1 ts] eqn:Ht.
  - now rewrite (tokens_nil_strtok _ _ Ht).
  - destruct (tokens_strtok _ _ _ _ Ht) as (s1 & -> & Ht1).
    destruct ts as [|t2 ts].
    + now rewrite (tokens_nil_strtok _ _ Ht1).
    + destruct (tokens_strtok _ _ _ _ Ht1) as (s2 & -> & Ht2).
      destruct ts as [|t3 ts]; [|simpl in Hlen; lia].
      now rewrite (tokens_nil_strtok _ _ Ht2).
Qed.

(** What [update_menu] returns, whatever the request. *)
Lemma update_menu_inv request g g' :
  update_menu request g = Done g' ->
  0 <= reg_count g <= 9 /\ 0 <= last_entry g <= MAX_STRING - 3 /\
  g' = {| menu := three_lines g;
          last_entry := last_entry g + 3;
          reg_count := reg_count g |}.
Proof.
  unfold update_menu. destruct (strtok request "+") as [t0 s0].
  destruct (strtok s0 "+") as [t1 s1]. destruct (strtok s1 "+") as [t2 s2].
  destruct t2 as [b|]; [|discriminate]. cbn [deref lift andthen].
  destruct (Z_le_dec 0 (reg_count g)) as [H0|H0];
    [destruct (Z_le_dec (reg_count g) 9) as [H9|H9]|];
    try (rewrite sprintf_int_overruns by lia; discriminate).
  rewrite sprintf_int_fits by lia. cbn [andthen].
  destruct (store_entry (last_entry g) _ _) as [m1|] eqn:E1; [|discriminate].
  cbn [andthen].
  destruct (store_entry (last_entry g + 1) _ _) as [m2|] eqn:E2; [|discriminate].
  cbn [andthen].
  destruct (store_entry (last_entry g + 2) _ _) as [m3|] eqn:E3; [|discriminate].
  cbn [andthen]. intros [= <-].
  apply store_entry_done in E1 as [Hi1 ->].
  apply store_entry_done in E2 as [Hi2 ->].
  apply store_entry_done in E3 as [Hi3 ->].
  split; [lia|]. split; [lia|]. reflexivity.
Qed.

(** A request that begins with [insert] goes to [update_menu], the
    count one up. *)
Lemma round_insert request g :
  String.prefix "insert" request = true -> reg_count g < INT_MAX ->
  round request g =
  (g' <~ update_menu request
           {| menu := menu g; last_entry := last_entry g;
              reg_count := reg_count g + 1 |} ;;
   Done (g', Sent request, Server.Continue)).
Proof.
  intros Hp Hc. destruct (insert_not_local request Hp) as (Hh & Hq).
  unfold round. rewrite Hh, Hq. change 6%nat with (String.length "insert").
  rewrite strncmp_prefix, Hp. unfold Server.incr.
  apply Z.ltb_lt in Hc. now rewrite Hc.
Qed.

(** One round either leaves the state as they are or adds a register
    to the menu. *)
Lemma round_cases request g g' e ctl :
  round request g = Done (g', e, ctl) ->
  (g' = g /\ (e = Shown (print_help g) \/
              e = Sent request /\ String.prefix "insert" request = false)) \/
  (String.prefix "insert" request = true /\ e = Sent request /\
   ctl = Server.Continue /\
   0 <= reg_count g + 1 <= 9 /\ 0 <= last_entry g <= MAX_STRING - 3 /\
   g' = {| menu := three_lines {| menu := menu g; last_entry := last_entry g;
                                  reg_count := reg_count g + 1 |};
           last_entry := last_entry g + 3;
           reg_count := reg_count g + 1 |}).
Proof.
  unfold round. intros H.
  destruct (strcmp request "help" =? 0); [left; inversion H; auto|].
  destruct (strcmp request "quit" =? 0) eqn:Eq.
  { rewrite strcmp_eqb in Eq. apply String.eqb_eq in Eq. subst request.
    left. inversion H. auto. }
  change 6%nat with (String.length "insert") in H. rewrite strncmp_prefix in H.
  destruct (String.prefix "insert" request); [|left; inversion H; auto].
  right. unfold Server.incr in H.
  destruct (reg_count g <? INT_MAX); [|discriminate]. cbn [lift andthen] in H.
  destruct (update_menu request _) as [g1|] eqn:E; [|discriminate].
  cbn [andthen] in H. inversion H; subst.
  destruct (update_menu_inv _ _ _ E) as (Hr & Hl & Hg).
  cbn [reg_count last_entry menu] in *. auto 10.
Qed.

Lemma filled_start : filled state0.
Proof.
  intros i. unfold state0. cbn [menu last_entry].
  destruct (i <? 0) eqn:Hneg.
  - apply Z.ltb_lt in Hneg. split; [intros (l & Hl); discriminate | lia].
  - apply Z.ltb_ge in Hneg. split.
    + intros (l & Hl). assert (Hlt : (Z.to_nat i < 7)%nat).
      { apply (nth_error_Some initial_menu). congruence. }
      lia.
    + intros Hi. destruct (nth_error initial_menu (Z.to_nat i)) eqn:E; [eauto|].
      apply nth_error_None in E. simpl in E. lia.
Qed.

Lemma filled_three_lines g :
  filled g -> 0 <= last_entry g ->
  filled {| menu := three_lines g; last_entry := last_entry g + 3;
            reg_count := reg_count g |}.
Proof.
  intros Hf Hl i. cbn [menu last_entry].
  destruct (three_lines_spec g) as (H0 & H1 & H2 & Hout).
  destruct (Z_lt_dec i (last_entry g)) as [Hlt|Hge].
  - rewrite Hout by lia. rewrite (Hf i). lia.
  - destruct (Z_lt_dec i (last_entry g + 3)) as [Hlt3|Hge3].
    + split; [intros _; lia|].
      intros _.
      assert (Hi : i = last_entry g \/ i = last_entry g + 1 \/ i = last_entry g + 2)
        by lia.
      destruct Hi as [->|[->| ->]]; eauto.
    + rewrite Hout by lia. rewrite (Hf i). lia.
Qed.

(** The invariant of the client: the menu is filled up to [last_entry],
    which counts seven lines and three per register after the second;
    the number of a register has one digit. *)
Lemma reached_invariant g :
  reached g ->
  filled g /\ last_entry g = 7 + 3 * (reg_count g - 2) /\ 2 <= reg_count g <= 9.
Proof.
  induction 1 as [|g request g' e ctl Hr IH H].
  - split; [apply filled_start|].
    unfold state0, INITIAL_REGS; simpl; lia.
  - destruct IH as (Hf & Hl & Hc).
    destruct (round_cases _ _ _ _ _ H) as [(-> & _)|(_ & _ & _ & Hc' & Hl' & ->)];
      [auto|].
    split.
    + apply (filled_three_lines
               {| menu := menu g; last_entry := last_entry g;
                  reg_count := reg_count g + 1 |}); [exact Hf|].
      cbn [last_entry]. lia.
    + cbn [last_entry reg_count]. lia.
Qed.

Lemma shown_upto_succ g k :
  shown_upto g (S k) =
  (shown_upto g k ++ match menu g (Z.of_nat k) with
                     | Some line => [line]
                     | None => []
                     end)%list.
Proof.
  unfold shown_upto. rewrite seq_S, flat_map_app. cbn [flat_map Nat.add].
  now rewrite app_nil_r.
Qed.

Lemma shown_upto_length g k :
  filled g ->
  List.length (shown_upto g k) = Z.to_nat (Z.min (Z.of_nat k) (last_entry g)).
Proof.
  intros Hf. induction k as [|k IH]; [simpl; lia|].
  rewrite shown_upto_succ, length_app, IH.
  destruct (menu g (Z.of_nat k)) as [line|] eqn:E.
  - assert (Hk : 0 <= Z.of_nat k < last_entry g) by (apply Hf; eauto).
    simpl. lia.
  - assert (Hk : ~ 0 <= Z.of_nat k < last_entry g)
      by (intros Hk; apply Hf in Hk as (l & Hl); congruence).
    simpl. lia.
Qed.

Lemma shown_upto_nth g k :
  filled g ->
  forall j, (j < List.length (shown_upto g k))%nat ->
            nth_error (shown_upto g k) j = menu g (Z.of_nat j).
Proof.
  intros Hf. induction k as [|k IH]; intros j Hj; [simpl in Hj; lia|].
  pose proof (shown_upto_length g k Hf) as Hlen.
  rewrite shown_upto_succ in *. rewrite length_app in Hj.
  destruct (menu g (Z.of_nat k)) as [line|] eqn:E.
  - assert (Hk : 0 <= Z.of_nat k < last_entry g) by (apply Hf; eauto).
    assert (Hlk : List.length (shown_upto g k) = k) by lia.
    simpl in Hj. destruct (Nat.eq_dec j k) as [->|Hne].
    + rewrite nth_error_app2 by lia. rewrite Hlk, Nat.sub_diag. simpl. now rewrite E.
    + rewrite nth_error_app1 by lia. apply IH. lia.
  - simpl in Hj. rewrite app_nil_r. apply IH. lia.
Qed.

End ClientFacts.

Import Client ClientFacts.

(* ================================================================== *)
(** * Properties of client.c *)
(* ================================================================== *)

(** X17: the client takes every word that begins with [insert] for an
    insertion, without a look at the answer of the server or at the
    value field. With fewer than three non-empty ['+']-fields
    [update_menu] copies from a [NULL] token. With three, and the number
    [reg_count + 1] of the new register of one digit, it writes the three
    menu lines of [REG<reg_count + 1>] at [last_entry], which moves up by
    three, and leaves the other entries; a number of more characters
    overruns the two bytes of [reg_pos]. *)
Theorem insert_updates_menu (request : string) (g : Client.state) :
  String.prefix "insert" request = true ->
  reg_count g < INT_MAX ->
  ((List.length (tokens request "+") < 3)%nat ->
   round request g = Crash (Library NullDeref)) /\
  ((3 <= List.length (tokens request "+"))%nat ->
   (~ 0 <= reg_count g + 1 <= 9 -> round request g = Crash Overrun) /\
   (0 <= reg_count g + 1 <= 9 -> 0 <= last_entry g <= MAX_STRING - 3 ->
    exists g',
      round request g = Done (g', Sent request, Server.Continue) /\
      reg_count g' = reg_count g + 1 /\ last_entry g' = last_entry g + 3 /\
      menu g' (last_entry g)
      = Some (read_line ("REG" ++ itoa (reg_count g + 1)) (reg_count g + 1)) /\
      menu g' (last_entry g + 1)
      = Some (bounds_line ("REG" ++ itoa (reg_count g + 1)) (reg_count g + 1)) /\
      menu g' (last_entry g + 2)
      = Some (write_line ("REG" ++ itoa (reg_count g + 1)) (reg_count g + 1)) /\
      forall i, ~ last_entry g <= i < last_entry g + 3 -> menu g' i = menu g i)).
Proof.
  intros Hp Hc. rewrite (round_insert request g Hp Hc).
  set (g1 := {| menu := menu g; last_entry := last_entry g;
                reg_count := reg_count g + 1 |}).
  split.
  - intros Hlen. now rewrite (update_menu_short request g1 Hlen).
  - intros Hlen.
    destruct (tokens request "+") as [|t1 [|t2 [|t3 rest]]] eqn:Ht;
      try (simpl in Hlen; lia).
    split.
    + intros Hn. now rewrite (update_menu_overruns request g1 _ _ _ _ Ht Hn).
    + intros Hn Hl.
      rewrite (update_menu_tokens request g1 _ _ _ _ Ht Hn Hl).
      eexists. split; [reflexivity|]. cbn [reg_count last_entry menu].
      split; [reflexivity|]. split; [reflexivity|].
      exact (three_lines_spec g1).
Qed.

Lemma insert_updates_menu_witness :
  exists g',
    round "insert+abc+0-10" state0
    = Done (g', Sent "insert+abc+0-10", Server.Continue) /\
    reg_count g' = 3 /\ last_entry g' = 10 /\
    menu g' 7 = Some "~ REG3: Read the value of register 3 -> Response: <int>".
Proof.
  assert (Hp : String.prefix "insert" "insert+abc+0-10" = true) by reflexivity.
  assert (Hc : reg_count state0 < INT_MAX) by reflexivity.
  assert (Hn : (3 <= List.length (tokens "insert+abc+0-10" "+"))%nat)
    by (vm_compute; lia).
  assert (H9 : 0 <= reg_count state0 + 1 <= 9) by (split; discriminate).
  assert (Hl : 0 <= last_entry state0 <= MAX_STRING - 3)
    by (split; discriminate).
  destruct (proj2 (proj2 (insert_updates_menu "insert+abc+0-10" state0 Hp Hc)
                     Hn) H9 Hl)
    as (g' & H1 & H2 & H3 & H4 & _).
  exists g'. split; [exact H1|]. split; [exact H2|]. split; [exact H3|].
  exact H4.
Defined.

(** X18: in every state the client reaches, at most seven registers
    were inserted: the menu holds seven lines and three for each of
    them, all within the thirty places [help] prints, and [help] shows
    every line of the menu, in order. There is no eighth insertion: when
    [reg_count] is nine, a word that begins with [insert] ends the client
    in [update_menu], which never returns. *)
Theorem help_shows_menu (g : Client.state) :
  reached g ->
  2 <= reg_count g <= 9 /\
  last_entry g = 7 + 3 * (reg_count g - 2) /\
  List.length (print_help g) = Z.to_nat (last_entry g) /\
  (forall i line,
     menu g i = Some line -> nth_error (print_help g) (Z.to_nat i) = Some line) /\
  (reg_count g = 9 ->
   forall request r,
     String.prefix "insert" request = true -> round request g <> Done r).
Proof.
  intros Hr. destruct (reached_invariant g Hr) as (Hf & Hl & Hc).
  change (print_help g) with (shown_upto g MAX_ENTRIES).
  assert (Hlen : List.length (shown_upto g MAX_ENTRIES) = Z.to_nat (last_entry g)).
  { rewrite (shown_upto_length g MAX_ENTRIES Hf). unfold MAX_ENTRIES. lia. }
  split; [exact Hc|]. split; [exact Hl|]. split; [exact Hlen|]. split.
  - intros i line Hi.
    assert (Hin : 0 <= i < last_entry g) by (apply Hf; eauto).
    rewrite (shown_upto_nth g MAX_ENTRIES Hf) by lia.
    now rewrite Z2Nat.id by lia.
  - intros H9 request [[g' e] ctl] Hp Hround.
    destruct (round_cases _ _ _ _ _ Hround)
      as [(_ & [->|(_ & Hn)])|(_ & _ & _ & Hc' & _)].
    + destruct (insert_not_local request Hp) as (Hh & _).
      unfold round in Hround. rewrite Hh in Hround.
      destruct (strcmp request "quit" =? 0); [discriminate|].
      destruct (strncmp request "insert" 6 =? 0); [|discriminate].
      destruct (lift (Server.incr (reg_count g))); [|discriminate].
      cbn [andthen] in Hround.
      destruct (update_menu request _); discriminate.
    + congruence.
    + lia.
Qed.

Lemma help_shows_menu_witness :
  exists g',
    round "insert+5+0-10" state0
    = Done (g', Sent "insert+5+0-10", Server.Continue) /\
    List.length (print_help g') = 10%nat.
Proof.
  assert (Hround :
    round "insert+5+0-10" state0
    = Done ({| menu := three_lines {| menu := menu state0; last_entry := 7;
                                      reg_count := 3 |};
               last_entry := 10; reg_count := 3 |},
            Sent "insert+5+0-10", Server.Continue)) by reflexivity.
  eexists. split; [exact Hround|].
  refine (proj1 (proj2 (proj2 (help_shows_menu _ _)))).
  exact (reached_round _ _ _ _ _ reached_start Hround).
Defined.

Module SessionFacts.

Lemma delivered_some sent arrived :
  delivered sent = Some arrived ->
  arrived = sent /\ (String.length sent < MAX_RESPONSE_SIZE)%nat.
Proof.
  unfold delivered.
  destruct (String.length sent <? MAX_RESPONSE_SIZE)%nat eqn:E; [|discriminate].
  apply Nat.ltb_lt in E. intros [= <-]. auto.
Qed.

(** The loop of the client ends on the word [quit] alone. *)
Lemma round_break request c c' e :
  round request c = Done (c', e, Server.Break) ->
  request = "quit" /\ e = Sent "quit".
Proof.
  unfold round. intros H.
  destruct (strcmp request "help" =? 0); [discriminate|].
  destruct (strcmp request "quit" =? 0) eqn:Eq.
  - rewrite strcmp_eqb in Eq. apply String.eqb_eq in Eq. subst request.
    inversion H. auto.
  - destruct (strncmp request "insert" 6 =? 0); [|discriminate].
    destruct (lift (Server.incr (reg_count c))); [|discriminate].
    cbn [andthen] in H. destruct (update_menu request _); discriminate.
Qed.

End SessionFacts.
Import SessionFacts.

(** X19: the client and the server, side by side. When the two counters
    agree, the word typed is handed to [send_request], its end is among
    the twenty bytes sent, and both sides return, then the counters
    agree again; the server has left its loop if the client has (but a
    word that only begins with [quit] ends the server alone); and after
    a word that begins with [insert] the three new menu lines name the
    very id the server gave the new register. *)
Theorem menu_follows_server (request sent arrived msg : string)
  (c c' : Client.state) (g g' : Server.globals)
  (ctl ctl' : Server.control) :
  reachable g -> reg_count c = Server.numofregs g ->
  round request c = Done (c', Sent sent, ctl) ->
  delivered sent = Some arrived ->
  Server.serve arrived g = Ret (g', msg, ctl') ->
  reg_count c' = Server.numofregs g' /\
  (ctl = Server.Break -> ctl' = Server.Break) /\
  (String.prefix "insert" request = true ->
   exists v b,
     Server.regs g'
     = (Server.regs g
        ++ [ {| Server.regid := "REG" ++ itoa (reg_count c');
                Server.regvalue := v; Server.bounds := b |} ])%list /\
     menu c' (last_entry c)
     = Some (read_line ("REG" ++ itoa (reg_count c')) (reg_count c')) /\
     menu c' (last_entry c + 1)
     = Some (bounds_line ("REG" ++ itoa (reg_count c')) (reg_count c')) /\
     menu c' (last_entry c + 2)
     = Some (write_line ("REG" ++ itoa (reg_count c')) (reg_count c'))).
Proof.
  intros Hr Hagree Hround Hdel Hserve.
  destruct (delivered_some _ _ Hdel) as (-> & _).
  assert (Hquit : ctl = Server.Break -> ctl' = Server.Break).
  { intros ->. destruct (round_break _ _ _ _ Hround) as (_ & [= ->]).
    rewrite (serve_quit "quit" g eq_refl) in Hserve. now inversion Hserve. }
  destruct (round_cases _ _ _ _ _ Hround)
    as [(-> & [Hs|([= ->] & Hp)])|(Hp & [= ->] & _ & _ & _ & ->)];
    [discriminate| |].
  - split; [|split; [exact Hquit | congruence]].
    destruct (serve_cases _ _ _ _ _ Hserve) as [(Hp' & _)|(_ & _ & Hn)];
      [congruence | lia].
  - destruct (serve_insert_inv _ _ _ _ _ Hp Hserve) as (_ & _ & v & b & Ha).
    destruct (add_register_spec _ _ _ _ (reachable_numbered g Hr) Ha)
      as (Hregs & Hn & _).
    cbn [reg_count]. split; [lia|]. split; [exact Hquit|].
    intros _. exists v, b. rewrite Hagree. split; [exact Hregs|].
    destruct (three_lines_spec {| menu := menu c; last_entry := last_entry c;
                                  reg_count := reg_count c + 1 |})
      as (H1 & H2 & H3 & _).
    cbn [menu last_entry reg_count] in *. rewrite <- Hagree. auto.
Qed.

Lemma menu_follows_server_witness :
  exists c' g',
    round "insert+5+0-10" state0
    = Done (c', Sent "insert+5+0-10", Server.Continue) /\
    Server.serve "insert+5+0-10" two_registers
    = Ret (g', "INSERTION COMPLETE" ++ Server.nl, Server.Continue) /\
    reg_count c' = Server.numofregs g'.
Proof.
  assert (Hround :
    round "insert+5+0-10" state0
    = Done ({| menu := three_lines {| menu := menu state0; last_entry := 7;
                                      reg_count := 3 |};
               last_entry := 10; reg_count := 3 |},
            Sent "insert+5+0-10", Server.Continue)) by reflexivity.
  eexists. eexists. split; [exact Hround|]. split; [reflexivity|].
  refine (proj1 (menu_follows_server "insert+5+0-10" _ _ _ state0 _
                   two_registers _ _ _ _ eq_refl Hround eq_refl eq_refl)).
  exists two_registers; split; [reflexivity | constructor].
Defined.
